(** * War at Sea deckbuilder: the deck constraint and recommendation engine

    A shallow embedding of [src/Deckbuilder.jsx]: the wait-time parser, the
    cooldown countdown, the catalog filter, the deck totals, the add / remove
    actions, the save action and the greedy recommender, followed by the
    properties of the specification that concern them.

    Modelling conventions.
    - JavaScript strings are ASCII strings; [toLowerCase] folds [A-Z].
    - Integers (points, counts, milliseconds) are [Z]; the effective-damage
      numbers, floating point in the source, are exact rationals [Q].  The
      source rounds where [Q] does not, so the sums of effective damage and
      the scores of the recommender stand for the values of the source only
      up to rounding.  The general statements below do not rely on their
      arithmetic, on the order of two scores or on a tie between them,
      except at stats that are all zero, where the source is exact too;
      the examples use values that the source orders the same way.
    - A value that may be [null] or [undefined] is an [option].
    - The deck, a JavaScript object used as a map from unit id to count, is
      an association list in insertion order, the order in which
      [Object.entries] lists keys that are not array indices.
    - The ownership table, only ever looked up, is a [gmap].
    - Calls to the sign-in and persistence endpoints are returned as a list
      of requests next to the new state; the answer of an endpoint is an
      argument.  [Date.now()] is an argument as well.
    - The recommender keeps, besides [next] and [pts], a record of the
      copies it adds, so that statements can speak of each add. *)

From Stdlib Require Import ZArith QArith Lia Bool Ascii String Sorted.
From stdpp Require Import base option list strings pretty gmap.
From Equations Require Import Equations.

Local Open Scope Z_scope.
Local Open Scope string_scope.

(** ** Characters and strings *)

Module Chars.

Definition code (c : ascii) : N := N_of_ascii c.

Definition between (lo hi : N) (c : ascii) : bool :=
  ((lo <=? code c) && (code c <=? hi))%N.

(** [\d] *)
Definition is_digit (c : ascii) : bool := between 48 57 c.

(** [\s], restricted to the ASCII white space characters. *)
Definition is_space (c : ascii) : bool := between 9 13 c || (code c =? 32)%N.

Definition is_upper (c : ascii) : bool := between 65 90 c.
Definition is_lower (c : ascii) : bool := between 97 122 c.

(** [\w] is [[A-Za-z0-9_]]. *)
Definition is_word (c : ascii) : bool :=
  is_upper c || is_lower c || is_digit c || (code c =? 95)%N.

Definition lower (c : ascii) : ascii :=
  if is_upper c then ascii_of_N (code c + 32) else c.

Definition digit_value (c : ascii) : Z := Z.of_N (code c) - 48.

Fixpoint toLowerCase (s : string) : string :=
  match s with
  | EmptyString => EmptyString
  | String c s' => String (lower c) (toLowerCase s')
  end.

Fixpoint chars (s : string) : list ascii :=
  match s with
  | EmptyString => []
  | String c s' => c :: chars s'
  end.

(** [s.startsWith(p)] on character lists. *)
Fixpoint starts_with (p s : list ascii) : bool :=
  match p, s with
  | [], _ => true
  | _ :: _, [] => false
  | a :: p', b :: s' => if decide (a = b) then starts_with p' s' else false
  end.

(** [s.includes(p)]: [p] occurs in [s] at some position. *)
Fixpoint includes_chars (s p : list ascii) : bool :=
  starts_with p s ||
  match s with
  | [] => false
  | _ :: s' => includes_chars s' p
  end.

Definition includes (s p : string) : bool := includes_chars (chars s) (chars p).

End Chars.

(** ** The regular expressions of [parseWaitSeconds]

    A backtracking matcher in continuation-passing style, with the priority
    order of ECMAScript: alternatives left to right, quantifiers greedy, the
    leftmost start position first.  The flag [/i] is built in: a literal
    matches a character with the same lower-case form. *)

Module Regex.
Import Chars.

Inductive cls := Digit | Space.

Definition in_cls (c : cls) (x : ascii) : bool :=
  match c with
  | Digit => is_digit x
  | Space => is_space x
  end.

Inductive re :=
| Chr (c : ascii)          (* a literal character *)
| Cls (c : cls)            (* [\d] or [\s] *)
| Seq (r1 r2 : re)
| Alt (r1 r2 : re)         (* [r1|r2] *)
| Star (c : cls)           (* [c*], greedy *)
| Plus (c : cls)           (* [c+], greedy *)
| Cap (r : re)             (* the capture group [(r)] *)
| WordB                    (* [\b] *)
| Eps.                     (* the empty pattern *)

(** The matcher state: the character before the current position, the
    input from the current position on, and the text of group 1. *)
Record state := State {
  prev : option ascii;
  rest : list ascii;
  group1 : option (list ascii)
}.

Definition cont := state -> option (list ascii).

Definition word_before (s : state) : bool :=
  match prev s with Some c => is_word c | None => false end.

Definition word_after (s : state) : bool :=
  match rest s with c :: _ => is_word c | [] => false end.

Definition at_boundary (s : state) : bool := xorb (word_before s) (word_after s).

(** Consume one character accepted by [p]. *)
Definition one (p : ascii -> bool) (k : cont) (s : state) : option (list ascii) :=
  match rest s with
  | x :: t => if p x then k (State (Some x) t (group1 s)) else None
  | [] => None
  end.

(** Greedy repetition of a class: as many characters as possible first,
    giving them back one at a time when the continuation fails. *)
Fixpoint star (p : ascii -> bool) (k : cont)
    (pv : option ascii) (inp : list ascii) (g : option (list ascii))
    : option (list ascii) :=
  match inp with
  | x :: t =>
      if p x then
        match star p k (Some x) t g with
        | Some r => Some r
        | None => k (State pv inp g)
        end
      else k (State pv inp g)
  | [] => k (State pv inp g)
  end.

Definition consumed (s s' : state) : list ascii :=
  take (length (rest s) - length (rest s'))%nat (rest s).

Fixpoint run (r : re) (k : cont) (s : state) : option (list ascii) :=
  match r with
  | Chr c => one (fun x => if decide (lower x = lower c) then true else false) k s
  | Cls c => one (in_cls c) k s
  | Seq r1 r2 => run r1 (run r2 k) s
  | Alt r1 r2 =>
      match run r1 k s with
      | Some x => Some x
      | None => run r2 k s
      end
  | Star c => star (in_cls c) k (prev s) (rest s) (group1 s)
  | Plus c =>
      one (in_cls c) (fun s' => star (in_cls c) k (prev s') (rest s') (group1 s')) s
  | Cap r1 =>
      run r1 (fun s' => k (State (prev s') (rest s') (Some (consumed s s')))) s
  | WordB => if at_boundary s then k s else None
  | Eps => k s
  end.

(** A match succeeds with the text of group 1. *)
Definition accept : cont := fun s => Some (default [] (group1 s)).

(** [str.match(r)] without the [g] flag: the first position, from the left,
    at which [r] matches; the result is [m[1]]. *)
Fixpoint search (r : re) (pv : option ascii) (inp : list ascii)
    : option (list ascii) :=
  match run r accept (State pv inp None) with
  | Some g => Some g
  | None =>
      match inp with
      | [] => None
      | x :: t => search r (Some x) t
      end
  end.

Definition exec (r : re) (s : string) : option (list ascii) :=
  search r None (chars s).

(** A literal word. *)
Fixpoint word (w : list ascii) : re :=
  match w with
  | [] => Eps
  | [c] => Chr c
  | c :: w' => Seq (Chr c) (word w')
  end.

Definition lit (s : string) : re := word (chars s).

(** [/(\d+)\s*(?:second|sec|s)\b/i] *)
Definition seconds_re : re :=
  Seq (Cap (Plus Digit))
    (Seq (Star Space)
      (Seq (Alt (lit "second") (Alt (lit "sec") (lit "s"))) WordB)).

(** [/(\d+)\s*(?:minute|min|m)\b/i] *)
Definition minutes_re : re :=
  Seq (Cap (Plus Digit))
    (Seq (Star Space)
      (Seq (Alt (lit "minute") (Alt (lit "min") (lit "m"))) WordB)).

End Regex.

(** ** The wait-time parser *)

(** [parseInt(digits, 10)] on a string of decimal digits. *)
Definition parseInt (ds : list ascii) : Z :=
  fold_left (fun acc d => 10 * acc + Chars.digit_value d) ds 0.

(** [parseWaitSeconds(msg)] for a string [msg]; [None] is [null]. *)
Definition parseWaitSeconds (msg : string) : option Z :=
  if decide (msg = "") then None
  else
    match Regex.exec Regex.seconds_re msg with
    | Some m => Some (parseInt m)
    | None =>
        match Regex.exec Regex.minutes_re msg with
        | Some m2 => Some (parseInt m2 * 60)
        | None => None
        end
    end.

(** The rate-limit branch of [onMagicSubmit]: [e.wait ?? 60]. *)
Definition waitOrDefault (wait : option Z) : Z := default 60 wait.

Definition rateLimitWait (msg : string) : Z := waitOrDefault (parseWaitSeconds msg).

(** ** The cooldown countdown *)

(** [Math.ceil(a / b)] for integers [a] and [b > 0]. *)
Definition ceil_div (a b : Z) : Z := - ((- a) / b).

(** The value [tick] stores in [cooldownLeft]:
    [Math.max(0, Math.ceil((cooldownUntil - Date.now()) / 1000))]. *)
Definition countdown (cooldownUntil now : Z) : Z :=
  Z.max 0 (ceil_div (cooldownUntil - now) 1000).

(** ** Data model *)

(** A row of [unit_stats]: [effective_gunnerytotal_r] for the range [r]. *)
Record Stats := { effective_gunnerytotal : nat -> option Q }.

(** A catalog unit, with the fields the engine reads. *)
Record Unit := {
  u_id : string;
  u_name : option string;
  u_nation : option string;
  u_type : option string;
  u_points : option Z;
  u_abilities : option string;
  u_stats : option Stats
}.

(** A row of [user_ownership]. *)
Record OwnershipRecord := {
  owned : option bool;
  copies : option Z
}.

Inductive FactionRule := axis_only | allies_only | mixed.

Inductive Faction := Axis | Allies | Mixed.

#[global] Instance FactionRule_eq_dec : EqDecision FactionRule.
Proof. solve_decision. Defined.

#[global] Instance Faction_eq_dec : EqDecision Faction.
Proof. solve_decision. Defined.

Record Session := { access_token : string; user_id : string }.

(** [u.points||0] *)
Definition pts (u : Unit) : Z := default 0 (u_points u).

(** [Number(st[`effective_gunnerytotal_${r}`] || 0)] with [st = u.stats || {}] *)
Definition eff (u : Unit) (r : nat) : Q :=
  default 0%Q (u_stats u ≫= fun st => effective_gunnerytotal st r).

(** *** The deck: unit id to count *)

Abbreviation Deck := (list (string * Z)).

Fixpoint deck_lookup (d : Deck) (k : string) : option Z :=
  match d with
  | [] => None
  | (k', c) :: d' => if decide (k' = k) then Some c else deck_lookup d' k
  end.

(** [deck[k] || 0] *)
Definition deck_get (d : Deck) (k : string) : Z := default 0 (deck_lookup d k).

(** [{ ...d, [k]: v }]: an existing key keeps its place, a new one goes last. *)
Fixpoint deck_set (d : Deck) (k : string) (v : Z) : Deck :=
  match d with
  | [] => [(k, v)]
  | (k', c) :: d' =>
      if decide (k' = k) then (k, v) :: d' else (k', c) :: deck_set d' k v
  end.

(** [const { [k]: _, ...rest } = d] *)
Definition deck_delete (d : Deck) (k : string) : Deck :=
  filter (fun e => e.1 ≠ k) d.

(** *** The nation sets *)

Definition axis : list string :=
  ["Germany"; "Italy"; "Japan"; "Finland"; "Romania"; "Hungary"; "Bulgaria"; "Axis"].

Definition allies : list string :=
  ["USA"; "United States"; "United Kingdom"; "UK"; "Britain"; "Soviet Union";
   "USSR"; "France"; "Canada"; "Netherlands"; "Poland"; "Australia";
   "New Zealand"; "Greece"; "Norway"; "Allies"].

(** [set.has(n)] for a nation that may be [null]. *)
Definition has (set : list string) (n : option string) : bool :=
  match n with
  | Some s => bool_decide (s ∈ set)
  | None => false
  end.

(** ** Application state: the [useState] slots of [App] *)

Record AppState := {
  session : option Session;
  email : string;
  units : list Unit;
  ownership : gmap string OwnershipRecord;
  pointCap : Z;
  factionRule : FactionRule;
  ownedOnly : bool;
  q : string;
  nation : string;
  type : string;
  deck : Deck;
  deckName : string;
  saving : bool;
  error : string;
  ok : string;
  cooldownUntil : Z;
  cooldownLeft : Z;
  (* localStorage["magic_cooldown_until"] *)
  stored_cooldown : option Z
}.

Definition DEFAULT_CAP : Z := 150.
Definition DEFAULT_RULE : FactionRule := axis_only.
Definition POINT_CAPS : list Z := [50; 80; 110; 150; 200; 250].

(** The state at mount, reading the persisted deadline. *)
Definition initial (stored : option Z) : AppState := {|
  session := None; email := ""; units := []; ownership := ∅;
  pointCap := DEFAULT_CAP; factionRule := DEFAULT_RULE; ownedOnly := true;
  q := ""; nation := "All"; type := "All";
  deck := []; deckName := "My Axis 150"; saving := false;
  error := ""; ok := "";
  cooldownUntil := default 0 stored; cooldownLeft := 0;
  stored_cooldown := stored
|}.

Definition setDeck (d : Deck) (st : AppState) : AppState :=
  {| session := session st; email := email st; units := units st;
     ownership := ownership st; pointCap := pointCap st;
     factionRule := factionRule st; ownedOnly := ownedOnly st;
     q := q st; nation := nation st; type := type st;
     deck := d; deckName := deckName st; saving := saving st;
     error := error st; ok := ok st;
     cooldownUntil := cooldownUntil st; cooldownLeft := cooldownLeft st;
     stored_cooldown := stored_cooldown st |}.

Definition setEmail (e : string) (st : AppState) : AppState :=
  {| session := session st; email := e; units := units st;
     ownership := ownership st; pointCap := pointCap st;
     factionRule := factionRule st; ownedOnly := ownedOnly st;
     q := q st; nation := nation st; type := type st;
     deck := deck st; deckName := deckName st; saving := saving st;
     error := error st; ok := ok st;
     cooldownUntil := cooldownUntil st; cooldownLeft := cooldownLeft st;
     stored_cooldown := stored_cooldown st |}.

Definition setSession (s : option Session) (st : AppState) : AppState :=
  {| session := s; email := email st; units := units st;
     ownership := ownership st; pointCap := pointCap st;
     factionRule := factionRule st; ownedOnly := ownedOnly st;
     q := q st; nation := nation st; type := type st;
     deck := deck st; deckName := deckName st; saving := saving st;
     error := error st; ok := ok st;
     cooldownUntil := cooldownUntil st; cooldownLeft := cooldownLeft st;
     stored_cooldown := stored_cooldown st |}.

Definition setSaving (b : bool) (st : AppState) : AppState :=
  {| session := session st; email := email st; units := units st;
     ownership := ownership st; pointCap := pointCap st;
     factionRule := factionRule st; ownedOnly := ownedOnly st;
     q := q st; nation := nation st; type := type st;
     deck := deck st; deckName := deckName st; saving := b;
     error := error st; ok := ok st;
     cooldownUntil := cooldownUntil st; cooldownLeft := cooldownLeft st;
     stored_cooldown := stored_cooldown st |}.

Definition setError (e : string) (st : AppState) : AppState :=
  {| session := session st; email := email st; units := units st;
     ownership := ownership st; pointCap := pointCap st;
     factionRule := factionRule st; ownedOnly := ownedOnly st;
     q := q st; nation := nation st; type := type st;
     deck := deck st; deckName := deckName st; saving := saving st;
     error := e; ok := ok st;
     cooldownUntil := cooldownUntil st; cooldownLeft := cooldownLeft st;
     stored_cooldown := stored_cooldown st |}.

Definition setOk (o : string) (st : AppState) : AppState :=
  {| session := session st; email := email st; units := units st;
     ownership := ownership st; pointCap := pointCap st;
     factionRule := factionRule st; ownedOnly := ownedOnly st;
     q := q st; nation := nation st; type := type st;
     deck := deck st; deckName := deckName st; saving := saving st;
     error := error st; ok := o;
     cooldownUntil := cooldownUntil st; cooldownLeft := cooldownLeft st;
     stored_cooldown := stored_cooldown st |}.

Definition setCooldownLeft (n : Z) (st : AppState) : AppState :=
  {| session := session st; email := email st; units := units st;
     ownership := ownership st; pointCap := pointCap st;
     factionRule := factionRule st; ownedOnly := ownedOnly st;
     q := q st; nation := nation st; type := type st;
     deck := deck st; deckName := deckName st; saving := saving st;
     error := error st; ok := ok st;
     cooldownUntil := cooldownUntil st; cooldownLeft := n;
     stored_cooldown := stored_cooldown st |}.

(** [localStorage.setItem('magic_cooldown_until', String(until));
    setCooldownUntil(until)] *)
Definition storeCooldownUntil (t : Z) (st : AppState) : AppState :=
  {| session := session st; email := email st; units := units st;
     ownership := ownership st; pointCap := pointCap st;
     factionRule := factionRule st; ownedOnly := ownedOnly st;
     q := q st; nation := nation st; type := type st;
     deck := deck st; deckName := deckName st; saving := saving st;
     error := error st; ok := ok st;
     cooldownUntil := t; cooldownLeft := cooldownLeft st;
     stored_cooldown := Some t |}.

(** ** Derived values *)

(** [ownership[u.id]?.copies ?? 99] *)
Definition maxCopies (own : gmap string OwnershipRecord) (u : Unit) : Z :=
  default 99 (own !! u_id u ≫= copies).

(** [ownership[u.id]?.owned || ownership[u.id]?.copies > 0] *)
Definition isOwned (own : gmap string OwnershipRecord) (u : Unit) : bool :=
  match own !! u_id u with
  | Some r =>
      default false (owned r) ||
      match copies r with Some c => bool_decide (0 < c) | None => false end
  | None => false
  end.

(** [s?.toLowerCase().includes(qq)] for a string [s] that may be [null]. *)
Definition lowerIncludes (s : option string) (qq : string) : bool :=
  match s with
  | Some x => Chars.includes (Chars.toLowerCase x) qq
  | None => false
  end.

(** The [filtered] memo: the stages narrow [list] one after the other. *)
Definition filtered (st : AppState) : list Unit :=
  let list := units st in
  let list :=
    if decide (q st = "") then list
    else
      let qq := Chars.toLowerCase (q st) in
      List.filter (fun u => lowerIncludes (u_name u) qq
                            || lowerIncludes (u_abilities u) qq) list in
  let list :=
    if decide (nation st = "All") then list
    else List.filter (fun u => bool_decide (u_nation u = Some (nation st))) list in
  let list :=
    if decide (type st = "All") then list
    else List.filter (fun u => bool_decide (u_type u = Some (type st))) list in
  let list :=
    match factionRule st with
    | mixed => list
    | axis_only => List.filter (fun u => has axis (u_nation u)) list
    | allies_only => List.filter (fun u => has allies (u_nation u)) list
    end in
  let list :=
    if ownedOnly st then List.filter (isOwned (ownership st)) list else list in
  list.

(** [units.find(x => x.id === unit_id)] *)
Definition findUnit (us : list Unit) (unit_id : string) : option Unit :=
  List.find (fun x => bool_decide (u_id x = unit_id)) us.

(** The [deckItems] memo: [Object.entries(deck)] mapped to [{unit, count}],
    the entries whose unit was not found filtered out. *)
Definition deckItemsOf (us : list Unit) (d : Deck) : list (Unit * Z) :=
  omap (fun e => match findUnit us e.1 with
                 | Some u => Some (u, e.2)
                 | None => None
                 end) d.

Definition deckItems (st : AppState) : list (Unit * Z) :=
  deckItemsOf (units st) (deck st).

(** The [deckPoints] memo. *)
Definition pointsOf (items : list (Unit * Z)) : Z :=
  fold_left (fun acc x => acc + pts x.1 * x.2) items 0.

Definition deckPoints (st : AppState) : Z := pointsOf (deckItems st).

(** The [effectiveSumByRange] memo: [out[r]] for [r] in [[0,1,2,3]]. *)
Definition effectiveSumOf (items : list (Unit * Z)) (r : nat) : Q :=
  fold_left (fun out x => (out + eff x.1 r * inject_Z x.2)%Q) items 0%Q.

Definition effectiveSumByRange (st : AppState) : list Q :=
  List.map (effectiveSumOf (deckItems st)) [0; 1; 2; 3]%nat.

(** The [factionOfDeck] memo. *)
Definition factionOf (items : list (Unit * Z)) : Faction :=
  let nationsInDeck := remove_dups (List.map (fun x => u_nation x.1) items) in
  let allAxis := forallb (has axis) nationsInDeck in
  let allAllies := forallb (has allies) nationsInDeck in
  if allAxis then Axis else if allAllies then Allies else Mixed.

Definition factionOfDeck (st : AppState) : Faction := factionOf (deckItems st).

(** The faction a rule asks for: [factionRule==="axis_only"?"Axis":"Allies"]. *)
Definition ruleFaction (r : FactionRule) : Faction :=
  match r with axis_only => Axis | _ => Allies end.

(** [disabled], the gate of the [+ Add] button of the catalog panel. *)
Definition disabled (st : AppState) (u : Unit) : bool :=
  let maxCopies := maxCopies (ownership st) u in
  let inDeck := deck_get (deck st) (u_id u) in
  bool_decide (maxCopies <= inDeck)
  || bool_decide (pointCap st < deckPoints st + pts u)
  || (bool_decide (factionRule st ≠ mixed)
      && bool_decide (0 < length (deckItems st))%nat
      && bool_decide (factionOfDeck st ≠ ruleFaction (factionRule st))).

(** ** Deck actions *)

Definition addToDeck (u : Unit) (st : AppState) : AppState :=
  let maxCopies := maxCopies (ownership st) u in
  let prev := deck st in
  let cur := deck_get prev (u_id u) in
  if decide (maxCopies <= cur) then st
  else setDeck (deck_set prev (u_id u) (cur + 1)) st.

Definition removeFromDeck (u : Unit) (st : AppState) : AppState :=
  let prev := deck st in
  let cur := deck_get prev (u_id u) in
  if decide (cur <= 1) then setDeck (deck_delete prev (u_id u)) st
  else setDeck (deck_set prev (u_id u) (cur - 1)) st.

Definition clearDeck (st : AppState) : AppState := setDeck [] st.

(** ** Sign-in and the cooldown *)

(** [formatError(e)] for an [Error] object with the message [msg] and no
    [msg] property: the message, or [JSON.stringify(e)] when it is empty. *)
Definition formatError (msg : string) : string :=
  if decide (msg = "") then "{}" else msg.

(** What the sign-in endpoint answers: success, or a status with the
    [error_code] and [msg] fields of the parsed payload. *)
Inductive SignInResponse :=
| SignInOk
| SignInFailed (status : Z) (error_code : option string) (msg : option string).

(** The error [auth.signInMagic] throws on a failed response. *)
Record SignInError := {
  e_message : string;
  e_code : Z;
  e_error_code : option string;
  e_wait : option Z
}.

Definition signInError (status : Z) (error_code msg : option string) : SignInError :=
  {| e_message := match msg with
                  | Some m => if decide (m = "") then "Sign-in failed" else m
                  | None => "Sign-in failed"
                  end;
     e_code := status;
     e_error_code := error_code;
     e_wait := msg ≫= parseWaitSeconds |}.

(** A request sent to the sign-in endpoint. *)
Inductive SignInRequest := MagicLink (email : string).

(** [tick], the body of the cooldown interval. *)
Definition tick (now : Z) (st : AppState) : AppState :=
  setCooldownLeft (countdown (cooldownUntil st) now) st.

(** The effect that runs when [cooldownUntil] changes. *)
Definition cooldownEffect (now : Z) (st : AppState) : AppState :=
  if decide (now < cooldownUntil st) then tick now st
  else setCooldownLeft 0 st.

(** [disabled] of the sign-in button. *)
Definition signInDisabled (st : AppState) : bool :=
  bool_decide (email st = "") || bool_decide (0 < cooldownLeft st).

(** [onMagicSubmit]: [resp] is the answer the endpoint gives if asked and
    [now] is [Date.now()] in the handler of a failure. *)
Definition onMagicSubmit (resp : SignInResponse) (now : Z) (st : AppState)
    : AppState * list SignInRequest :=
  let st := setOk "" (setError "" st) in
  if decide (email st = "") then (setError "Enter an email first" st, [])
  else if decide (0 < cooldownLeft st) then
    (setError ("Please wait " +:+ pretty (cooldownLeft st)
               +:+ "s before requesting another link.") st, [])
  else
    match resp with
    | SignInOk =>
        (setOk "Magic link sent. Check your email." st, [MagicLink (email st)])
    | SignInFailed status error_code msg =>
        let e := signInError status error_code msg in
        if bool_decide (e_code e = 429)
           || bool_decide (e_error_code e = Some "over_email_send_rate_limit")
        then
          let wait := waitOrDefault (e_wait e) in
          let until := now + wait * 1000 in
          (setError ("Too many requests. Try again in " +:+ pretty wait +:+ "s.")
             (storeCooldownUntil until st),
           [MagicLink (email st)])
        else (setError (formatError (e_message e)) st, [MagicLink (email st)])
    end.

(** ** Saving a deck *)

(** The body of the [POST] to [decks]; the description is
    [`${factionOfDeck} deck — ${deckPoints}/${pointCap} pts`]. *)
Record DeckBody := {
  b_user_id : string;
  b_name : string;
  b_description : Faction * Z * Z;
  b_point_cap : Z;
  b_faction_rule : FactionRule
}.

(** A row of the [POST] to [deck_units]. *)
Record DeckUnitRow := { r_deck_id : string; r_unit_id : string; r_count : Z }.

Inductive Request :=
| PostDecks (token : string) (body : DeckBody)
| PostDeckUnits (token : string) (payload : list DeckUnitRow).

(** The persistence endpoint: for [decks], the text of a failed response
    or the id of the stored row; for [deck_units], the text of a failed
    response if any. *)
Record Persister := {
  decks_response : DeckBody -> string + string;
  deck_units_response : list DeckUnitRow -> option string
}.

(** The [try] block: a computation that logs the requests it sends and
    either throws an [Error] with a message or returns. *)
Definition Try (A : Type) : Type := list Request -> (string + A) * list Request.

#[global] Instance Try_ret : MRet Try := fun A a log => (inr a, log).

#[global] Instance Try_bind : MBind Try := fun A B f m log =>
  match m log with
  | (inl e, log') => (inl e, log')
  | (inr a, log') => f a log'
  end.

Definition throw {A} (msg : string) : Try A := fun log => (inl msg, log).

Definition fetch {A} (req : Request) (response : A) : Try A :=
  fun log => (inr response, (log ++ [req])%list).

Definition throwIf (b : bool) (msg : string) : Try unit :=
  if b then throw msg else mret tt.

Definition saveDeck_try (db : Persister) (st : AppState) : Try unit :=
  s ← match session st with
      | None => throw "Sign in first (magic link)"
      | Some s => mret s
      end;
  throwIf (bool_decide (pointCap st < deckPoints st)) "Deck exceeds point cap";;
  throwIf (bool_decide (factionRule st = axis_only)
           && bool_decide (factionOfDeck st ≠ Axis))
    "Deck violates Axis-only rule";;
  throwIf (bool_decide (factionRule st = allies_only)
           && bool_decide (factionOfDeck st ≠ Allies))
    "Deck violates Allies-only rule";;
  let body := {| b_user_id := user_id s;
                 b_name := deckName st;
                 b_description := (factionOfDeck st, deckPoints st, pointCap st);
                 b_point_cap := pointCap st;
                 b_faction_rule := factionRule st |} in
  deckRes ← fetch (PostDecks (access_token s) body) (decks_response db body);
  deckRow ← match deckRes with
            | inl text => throw text
            | inr row => mret row
            end;
  let payload :=
    List.map (fun e => {| r_deck_id := deckRow; r_unit_id := e.1; r_count := e.2 |})
      (deck st) in
  match payload with
  | [] => mret tt
  | _ :: _ =>
      du ← fetch (PostDeckUnits (access_token s) payload)
             (deck_units_response db payload);
      match du with
      | Some text => throw text
      | None => mret tt
      end
  end.

(** [saveDeck]: the new state and the requests sent to the endpoint. *)
Definition saveDeck (db : Persister) (st : AppState) : AppState * list Request :=
  let st1 := setOk "" (setError "" (setSaving true st)) in
  let '(r, reqs) := saveDeck_try db st [] in
  let st2 := match r with
             | inl msg => setError (formatError msg) st1
             | inr _ => setOk "Deck saved" st1
             end in
  (setSaving false st2, reqs).

(** ** The greedy recommender *)

(** [(eff[0]+eff[1]+eff[2]+eff[3]) / Math.max(1, u.points||1)] *)
Definition score (u : Unit) : Q :=
  let points_or_1 := match u_points u with
                     | Some p => if decide (p = 0) then 1 else p
                     | None => 1
                     end in
  ((eff u 0 + eff u 1 + eff u 2 + eff u 3) / inject_Z (Z.max 1 points_or_1))%Q.

(** [sort((a,b) => b.score - a.score)]: descending by score, units of equal
    score in their order in the input (the sort is stable). *)
Fixpoint insertByScore (x : Unit) (l : list Unit) : list Unit :=
  match l with
  | [] => [x]
  | y :: l' =>
      if Qlt_le_dec (score x) (score y) then y :: insertByScore x l'
      else x :: y :: l'
  end.

Definition sortByScore (l : list Unit) : list Unit :=
  foldr insertByScore [] l.

(** One copy added by the recommender, recorded for the statements below:
    the unit, whether it is the first copy its candidate gets in this
    visit, and the points spent before and after. *)
Record AddEvent := {
  ev_unit : string;
  ev_first : bool;
  ev_before : Z;
  ev_after : Z
}.

(** The variables of the loops: [next], [pts], and the record of adds. *)
Record Loop := {
  next : Deck;
  spent : Z;
  adds : list AddEvent
}.

(** The inner loop of [recommend] for the candidate [u]:
[[
  while (pts + (u.points||0) <= pointCap) {
    const cur = next[u.id]||0; if (cur >= limit) break;
    next[u.id] = cur+1; pts += (u.points||0);
    if (pointCap-pts < 3) break;
  }
]]
    Each turn adds a copy, so [limit - cur] decreases. *)
Equations? addCopies (cap limit : Z) (u : Unit) (first : bool) (s : Loop) : Loop
    by wf (Z.to_nat (limit - deck_get (next s) (u_id u))) lt :=
  addCopies cap limit u first s with decide (spent s + pts u <= cap) => {
    | right _ := s;
    | left _ with decide (limit <= deck_get (next s) (u_id u)) => {
      | left _ := s;
      | right _ with decide (cap - (spent s + pts u) < 3) => {
        | left _ :=
            {| next := deck_set (next s) (u_id u) (deck_get (next s) (u_id u) + 1);
               spent := spent s + pts u;
               adds := adds s ++ [{| ev_unit := u_id u; ev_first := first;
                                     ev_before := spent s;
                                     ev_after := spent s + pts u |}] |};
        | right _ :=
            addCopies cap limit u false
              {| next := deck_set (next s) (u_id u) (deck_get (next s) (u_id u) + 1);
                 spent := spent s + pts u;
                 adds := adds s ++ [{| ev_unit := u_id u; ev_first := first;
                                       ev_before := spent s;
                                       ev_after := spent s + pts u |}] |}
        }
      }
  }.
Proof.
  simpl.
  assert (forall d k v, deck_get (deck_set d k v) k = v) as Hset.
  { intros d k v. unfold deck_get. induction d as [|[k' c] d IH]; simpl.
    - by rewrite decide_True.
    - destruct (decide (k' = k)) as [->|Hne]; simpl.
      + by rewrite decide_True.
      + by rewrite decide_False. }
  rewrite Hset. lia.
Qed.

(** The outer loop over the scored candidates; it stops once
    [pts >= pointCap-1]. *)
Fixpoint forScored (cap : Z) (own : gmap string OwnershipRecord)
    (scored : list Unit) (s : Loop) : Loop :=
  match scored with
  | [] => s
  | u :: scored' =>
      let s' := addCopies cap (maxCopies own u) u true s in
      if decide (cap - 1 <= spent s') then s'
      else forScored cap own scored' s'
  end.

(** The run of [recommend] on a filtered catalog. *)
Definition recommendRun (pool : list Unit) (own : gmap string OwnershipRecord)
    (cap : Z) : Loop :=
  forScored cap own (sortByScore pool) {| next := []; spent := 0; adds := [] |}.

Definition recommend (st : AppState) : AppState :=
  setDeck (next (recommendRun (filtered st) (ownership st) (pointCap st))) st.

(** ** Loading the catalog and the ownership table *)

(** A row of [units], before the stats are joined. *)
Record UnitRow := {
  x_id : string;
  x_name : option string;
  x_nation : option string;
  x_type : option string;
  x_points : option Z;
  x_abilities : option string
}.

(** A row of [unit_stats]. *)
Record StatsRow := { s_unit_id : string; s_stats : Stats }.

(** [new Map(s.map((r) => [r.unit_id, r]))]: a later row replaces an
    earlier one with the same key. *)
Definition statsMap (s : list StatsRow) : gmap string Stats :=
  fold_left (fun m r => <[s_unit_id r := s_stats r]> m) s ∅.

(** The object [{}] read as a stats row: every field is [undefined]. *)
Definition noStats : Stats := {| effective_gunnerytotal := fun _ => None |}.

(** [u.map((x) => ({ ...x, stats: sMap.get(x.id) || {} }))] *)
Definition mergeStats (u : list UnitRow) (s : list StatsRow) : list Unit :=
  let sMap := statsMap s in
  List.map (fun x =>
    {| u_id := x_id x; u_name := x_name x; u_nation := x_nation x;
       u_type := x_type x; u_points := x_points x;
       u_abilities := x_abilities x;
       u_stats := Some (default noStats (sMap !! x_id x)) |}) u.

(** A row of [user_ownership] as the endpoint returns it. *)
Record OwnershipRow := {
  o_unit_id : string;
  o_owned : option bool;
  o_copies : option Z
}.

(** [const map = {}; data.forEach((r) => { map[r.unit_id] = r; })] *)
Definition ownershipOf (data : list OwnershipRow) : gmap string OwnershipRecord :=
  fold_left (fun map r =>
               <[o_unit_id r := {| owned := o_owned r; copies := o_copies r |}]> map)
    data ∅.

Definition setUnits (us : list Unit) (st : AppState) : AppState :=
  {| session := session st; email := email st; units := us;
     ownership := ownership st; pointCap := pointCap st;
     factionRule := factionRule st; ownedOnly := ownedOnly st;
     q := q st; nation := nation st; type := type st;
     deck := deck st; deckName := deckName st; saving := saving st;
     error := error st; ok := ok st;
     cooldownUntil := cooldownUntil st; cooldownLeft := cooldownLeft st;
     stored_cooldown := stored_cooldown st |}.

Definition setOwnership (own : gmap string OwnershipRecord) (st : AppState)
    : AppState :=
  {| session := session st; email := email st; units := units st;
     ownership := own; pointCap := pointCap st;
     factionRule := factionRule st; ownedOnly := ownedOnly st;
     q := q st; nation := nation st; type := type st;
     deck := deck st; deckName := deckName st; saving := saving st;
     error := error st; ok := ok st;
     cooldownUntil := cooldownUntil st; cooldownLeft := cooldownLeft st;
     stored_cooldown := stored_cooldown st |}.

(** ** The options of the nation and type selects *)

(** The order of [Array.prototype.sort] without a comparator: strings
    compared code unit by code unit, a proper prefix first. *)
Fixpoint str_leb (a b : string) : bool :=
  match a, b with
  | EmptyString, _ => true
  | String _ _, EmptyString => false
  | String x a', String y b' =>
      if (Chars.code x <? Chars.code y)%N then true
      else if (Chars.code y <? Chars.code x)%N then false
      else str_leb a' b'
  end.

Fixpoint insertString (x : string) (l : list string) : list string :=
  match l with
  | [] => [x]
  | y :: l' => if str_leb x y then x :: y :: l' else y :: insertString x l'
  end.

Definition sortStrings (l : list string) : list string :=
  foldr insertString [] l.

(** [xs.filter(Boolean)] on values that may be [null]: the non-empty strings. *)
Definition truthy (xs : list (option string)) : list string :=
  omap (fun x => match x with
                 | Some s => if decide (s = "") then None else Some s
                 | None => None
                 end) xs.

(** [["All", ...Array.from(new Set(xs.filter(Boolean))).sort()]] *)
Definition options (xs : list (option string)) : list string :=
  "All" :: sortStrings (remove_dups (truthy xs)).

(** The [nations] and [types] memos. *)
Definition nations (st : AppState) : list string :=
  options (List.map u_nation (units st)).

Definition types (st : AppState) : list string :=
  options (List.map u_type (units st)).

(** The reset button of the filter panel:
    [setQ(""); setNation("All"); setType("All")]. *)
Definition resetFilters (st : AppState) : AppState :=
  {| session := session st; email := email st; units := units st;
     ownership := ownership st; pointCap := pointCap st;
     factionRule := factionRule st; ownedOnly := ownedOnly st;
     q := ""; nation := "All"; type := "All";
     deck := deck st; deckName := deckName st; saving := saving st;
     error := error st; ok := ok st;
     cooldownUntil := cooldownUntil st; cooldownLeft := cooldownLeft st;
     stored_cooldown := stored_cooldown st |}.

(** [setNation(n)], the change handler of the nation select. *)
Definition setNation (n : string) (st : AppState) : AppState :=
  {| session := session st; email := email st; units := units st;
     ownership := ownership st; pointCap := pointCap st;
     factionRule := factionRule st; ownedOnly := ownedOnly st;
     q := q st; nation := n; type := type st;
     deck := deck st; deckName := deckName st; saving := saving st;
     error := error st; ok := ok st;
     cooldownUntil := cooldownUntil st; cooldownLeft := cooldownLeft st;
     stored_cooldown := stored_cooldown st |}.

(** ** More vocabulary *)

(** The copy cap of the unit with id [k]: [ownership[k]?.copies ?? 99]. *)
Definition copyCap (own : gmap string OwnershipRecord) (k : string) : Z :=
  default 99 (own !! k ≫= copies).

(** A deck as the actions build it: every id once, every count at least 1
    and at most the copy cap of its unit. *)
Definition wellFormed (own : gmap string OwnershipRecord) (d : Deck) : Prop :=
  NoDup (List.map fst d)
  /\ Forall (fun e => 1 <= e.2 /\ e.2 <= copyCap own e.1) d.

(** A response that is a rate-limit signal for [onMagicSubmit]. *)
Definition rateLimited (status : Z) (error_code : option string) : Prop :=
  status = 429 \/ error_code = Some "over_email_send_rate_limit".

(** ** Vocabulary for saving *)

(** The deck passes the checks of [saveDeck]. *)
Definition Valid (st : AppState) : Prop :=
  deckPoints st <= pointCap st
  /\ (factionRule st = axis_only -> factionOfDeck st = Axis)
  /\ (factionRule st = allies_only -> factionOfDeck st = Allies).

(** The body [saveDeck] posts to [decks] for the session [s]. *)
Definition deckBody (st : AppState) (s : Session) : DeckBody :=
  {| b_user_id := user_id s;
     b_name := deckName st;
     b_description := (factionOfDeck st, deckPoints st, pointCap st);
     b_point_cap := pointCap st;
     b_faction_rule := factionRule st |}.

(** The rows [saveDeck] posts to [deck_units] for the stored deck [row]. *)
Definition deckPayload (row : string) (d : Deck) : list DeckUnitRow :=
  List.map (fun e => {| r_deck_id := row; r_unit_id := e.1; r_count := e.2 |}) d.

(** A pattern without a capture group. *)
Fixpoint nocap (r : Regex.re) : bool :=
  match r with
  | Regex.Seq r1 r2 | Regex.Alt r1 r2 => nocap r1 && nocap r2
  | Regex.Cap _ => false
  | _ => true
  end.

(** What the loops of the recommender keep: the deck is well formed and
    its ids are ids of candidates. *)
Definition recommendInv (pool : list Unit) (own : gmap string OwnershipRecord)
    (s : Loop) : Prop :=
  wellFormed own (next s)
  /\ Forall (fun e => e.1 ∈ List.map u_id pool) (next s).

(** * Vocabulary of the statements *)

(** ** Sample data *)

(** A ship with the same effective damage at every range. *)
Definition ship (i n : string) (p : Z) (e : Q) : Unit :=
  {| u_id := i; u_name := Some i; u_nation := Some n; u_type := Some "Ship";
     u_points := Some p; u_abilities := None;
     u_stats := Some {| effective_gunnerytotal := fun _ => Some e |} |}.

(** A session with the given catalog, ownership table, cap, rule and deck,
    the other slots as at mount and the owned-only filter off. *)
Definition stateOf (us : list Unit) (own : gmap string OwnershipRecord)
    (cap : Z) (rule : FactionRule) (d : Deck) : AppState :=
  {| session := None; email := ""; units := us; ownership := own;
     pointCap := cap; factionRule := rule; ownedOnly := false;
     q := ""; nation := "All"; type := "All";
     deck := d; deckName := "My Axis 150"; saving := false;
     error := ""; ok := "";
     cooldownUntil := 0; cooldownLeft := 0; stored_cooldown := None |}.

(** An endpoint that stores every deck. *)
Definition acceptAll : Persister :=
  {| decks_response := fun _ => inr "deck-1";
     deck_units_response := fun _ => None |}.

(** ** Texts without a unit word *)

(** The text [l] is free of the letter [c], in either case. *)
Definition free_of (c : ascii) (l : list ascii) : Prop :=
  Forall (fun x => Chars.lower x ≠ Chars.lower c) l.

(** A continuation is dead on texts free of [c] when it fails in every
    state whose remaining input is free of it. *)
Definition dead (c : ascii) (k : Regex.cont) : Prop :=
  forall s, free_of c (Regex.rest s) -> k s = None.

(** ** The filter, as the specification words it *)



(** The same, as a test. *)
Definition passes (st : AppState) (u : Unit) : bool :=
  (bool_decide (q st = "")
   || lowerIncludes (u_name u) (Chars.toLowerCase (q st))
   || lowerIncludes (u_abilities u) (Chars.toLowerCase (q st)))
  && (bool_decide (nation st = "All") || bool_decide (u_nation u = Some (nation st)))
  && (bool_decide (type st = "All") || bool_decide (u_type u = Some (type st)))
  && match factionRule st with
     | axis_only => has axis (u_nation u)
     | allies_only => has allies (u_nation u)
     | mixed => true
     end
  && (negb (ownedOnly st) || isOwned (ownership st) u).

(** ** Decks *)

(** The entries of a deck whose unit id occurs in the catalog. *)
Definition inCatalog (us : list Unit) (e : string * Z) : bool :=
  bool_decide (e.1 ∈ List.map u_id us).

(** The deck changes by the add and remove actions on units of the catalog. *)
Inductive deckStep : AppState -> AppState -> Prop :=
| step_add st u : u ∈ units st -> deckStep st (addToDeck u st)
| step_remove st u : u ∈ units st -> deckStep st (removeFromDeck u st).

(** The deck changes by adds the gate [disabled] lets through, as from the
    add button of the catalog panel, and by removes. *)
Inductive gatedStep : AppState -> AppState -> Prop :=
| gated_add st u :
    u ∈ units st -> disabled st u = false -> gatedStep st (addToDeck u st)
| gated_remove st u :
    u ∈ units st -> gatedStep st (removeFromDeck u st).

(** Unit ids are unique in the catalog and no unit costs less than zero. *)
Definition catalogOk (us : list Unit) : Prop :=
  NoDup (List.map u_id us) /\ Forall (fun u => 0 <= pts u) us.

(** The points one copy of the unit with id [k] adds to the total. *)
Definition weight (us : list Unit) (k : string) : Z :=
  match findUnit us k with Some u => pts u | None => 0 end.

(** What every gated step keeps: the total within the cap, no count below
    zero. *)
Definition withinCap (st : AppState) : Prop :=
  deckPoints st <= pointCap st /\ Forall (fun e => 0 <= e.2) (deck st).

(** The state [saveDeck] leaves after the error [msg]. *)
Definition saveFailed (msg : string) (st : AppState) : AppState :=
  setSaving false (setError msg (setOk "" (setError "" (setSaving true st)))).

(** ** The recommender *)

(** What holds of every copy the recommender adds: the add keeps the points
    spent within the cap, and a copy that is not the first of its
    candidate's visit is added with at least 3 points still free. *)
Definition addOk (cap : Z) (ev : AddEvent) : Prop :=
  ev_after ev <= cap /\ (ev_first ev = false -> 3 <= cap - ev_before ev).

(** * Properties *)

(** ** Wait-duration extraction *)

Section WaitSeconds.
Import Regex.

(** The parser on the messages the source checks at load time. *)
Example parse_wait_1_minute : parseWaitSeconds "wait 1 minute" = Some 60.
Proof. vm_compute. reflexivity. Qed.

Example parse_empty : parseWaitSeconds "" = None.
Proof. reflexivity. Qed.

Example parse_54_second : parseWaitSeconds "after 54 second" = Some 54.
Proof. vm_compute. reflexivity. Qed.

Example parse_54s : parseWaitSeconds "retry in 54s." = Some 54.
Proof. vm_compute. reflexivity. Qed.

Example parse_2_minutes : parseWaitSeconds "wait 2 minutes" = None.
Proof. vm_compute. reflexivity. Qed.

Example parse_no_unit : parseWaitSeconds "try again after 54" = None.
Proof. vm_compute. reflexivity. Qed.

(** The seconds pattern is tried on the whole message before the minutes
    pattern, and each pattern takes its leftmost match. *)
Example parse_seconds_first : parseWaitSeconds "2 min or 15 sec" = Some 15.
Proof. vm_compute. reflexivity. Qed.

Example parse_leftmost : parseWaitSeconds "wait 5s, at most 10s" = Some 5.
Proof. vm_compute. reflexivity. Qed.

Example parse_upper_case : parseWaitSeconds "WAIT 3 MIN" = Some 180.
Proof. vm_compute. reflexivity. Qed.

Lemma one_dead c p k s : dead c k -> free_of c (rest s) -> one p k s = None.
Proof.
  intros Hk Hs. unfold one. destruct (rest s) as [|x t] eqn:E; [done|].
  destruct (p x); [|done]. apply Hk. simpl.
  unfold free_of in *. by inversion Hs.
Qed.

Lemma star_dead c p k pv inp g : dead c k -> free_of c inp -> star p k pv inp g = None.
Proof.
  intros Hk. revert pv. induction inp as [|x t IH]; intros pv Hs; simpl.
  - by apply Hk.
  - destruct (p x).
    + rewrite IH; [by apply Hk|]. unfold free_of in *. by inversion Hs.
    + by apply Hk.
Qed.

Lemma chr_fails c k s : free_of c (rest s) -> run (Chr c) k s = None.
Proof.
  intros Hs. simpl. unfold one. destruct (rest s) as [|x t]; [done|].
  unfold free_of in Hs. inversion Hs; subst.
  by rewrite decide_False.
Qed.

(** A pattern [(\d+)\s*(?:w1|w2|w3)\b] whose three words start with the
    letter [c] finds nothing in a text free of [c]. *)
Lemma unit_pattern_fails c w1 w2 w3 k s :
  free_of c (rest s) ->
  run (Seq (Cap (Plus Digit))
        (Seq (Star Space)
          (Seq (Alt (word (c :: w1)) (Alt (word (c :: w2)) (word (c :: w3))))
               WordB))) k s = None.
Proof.
  intros Hs.
  assert (Hword : forall w k' s', free_of c (rest s') -> run (word (c :: w)) k' s' = None).
  { intros [|y w] k' s' Hs'; simpl word.
    - by apply chr_fails.
    - change (run (Chr c) (run (word (y :: w)) k') s' = None). by apply chr_fails. }
  assert (Halt : forall k', dead c (run (Seq (Alt (word (c :: w1))
                 (Alt (word (c :: w2)) (word (c :: w3)))) WordB) k')).
  { intros k' s' Hs'.
    change (run (Alt (word (c :: w1)) (Alt (word (c :: w2)) (word (c :: w3))))
              (run WordB k') s' = None).
    change (match run (word (c :: w1)) (run WordB k') s' with
            | Some x => Some x
            | None => match run (word (c :: w2)) (run WordB k') s' with
                      | Some x => Some x
                      | None => run (word (c :: w3)) (run WordB k') s'
                      end
            end = None).
    by rewrite !Hword. }
  assert (Hsp : forall k', dead c (run (Seq (Star Space)
                 (Seq (Alt (word (c :: w1)) (Alt (word (c :: w2)) (word (c :: w3))))
                      WordB)) k')).
  { intros k' s' Hs'.
    change (star (in_cls Space) (run (Seq (Alt (word (c :: w1))
              (Alt (word (c :: w2)) (word (c :: w3)))) WordB) k')
              (prev s') (rest s') (group1 s') = None).
    apply (star_dead c); [apply Halt | done]. }
  change (one (in_cls Digit)
            (fun s' => star (in_cls Digit)
               (fun s'' => run (Seq (Star Space)
                  (Seq (Alt (word (c :: w1)) (Alt (word (c :: w2)) (word (c :: w3))))
                       WordB)) k
                  (State (prev s'') (rest s'') (Some (consumed s s''))))
               (prev s') (rest s') (group1 s')) s = None).
  apply (one_dead c); [|done].
  intros s' Hs'. apply (star_dead c); [|done].
  intros s'' Hs''. by apply Hsp.
Qed.

Lemma search_unfold r pv inp :
  search r pv inp =
  match run r accept (State pv inp None) with
  | Some g => Some g
  | None => match inp with [] => None | x :: t => search r (Some x) t end
  end.
Proof. by destruct inp. Qed.

Lemma search_fails c w1 w2 w3 pv inp :
  free_of c inp ->
  search (Seq (Cap (Plus Digit))
        (Seq (Star Space)
          (Seq (Alt (word (c :: w1)) (Alt (word (c :: w2)) (word (c :: w3))))
               WordB))) pv inp = None.
Proof.
  revert pv. induction inp as [|x t IH]; intros pv Hs; rewrite search_unfold.
  - by rewrite unit_pattern_fails.
  - rewrite unit_pattern_fails by done. apply IH.
    unfold free_of in *. by inversion Hs.
Qed.

(** A message without the letters [s] and [m], in either case, names no
    unit: the parser returns [null] and the wait is the fallback. *)
Lemma parseWaitSeconds_no_unit (msg : string) :
  free_of "s" (Chars.chars msg) -> free_of "m" (Chars.chars msg) ->
  parseWaitSeconds msg = None /\ rateLimitWait msg = 60.
Proof.
  intros Hs Hm.
  assert (parseWaitSeconds msg = None) as H.
  { unfold parseWaitSeconds. destruct (decide (msg = "")); [done|].
    unfold exec.
    change seconds_re with
      (Seq (Cap (Plus Digit)) (Seq (Star Space)
        (Seq (Alt (word ("s"%char :: Chars.chars "econd"))
               (Alt (word ("s"%char :: Chars.chars "ec")) (word ("s"%char :: []))))
             WordB))).
    rewrite (search_fails "s") by done.
    change minutes_re with
      (Seq (Cap (Plus Digit)) (Seq (Star Space)
        (Seq (Alt (word ("m"%char :: Chars.chars "inute"))
               (Alt (word ("m"%char :: Chars.chars "in")) (word ("m"%char :: []))))
             WordB))).
    by rewrite (search_fails "m") by done. }
  split; [done|]. unfold rateLimitWait. by rewrite H.
Qed.

(** The fallback never raises: the wait is always a number. *)
Lemma rateLimitWait_total (msg : string) :
  rateLimitWait msg = 60 \/ parseWaitSeconds msg = Some (rateLimitWait msg).
Proof.
  unfold rateLimitWait. destruct (parseWaitSeconds msg); [by right | by left].
Qed.

Example wait_1_minute : rateLimitWait "wait 1 minute" = 60.
Proof. vm_compute. reflexivity. Qed.

Example wait_empty : rateLimitWait "" = 60.
Proof. reflexivity. Qed.

(** C2: the claim asks that a message with "after 54 seconds" yields a wait
    of 54.  In the source, [\b] after [second] does not hold before the
    plural [s], no alternative of the seconds pattern matches, the parser
    returns [null] and the rate-limit handler falls back to 60 seconds:
    the deadline it stores is 60 seconds away, not 54. *)
Theorem parseWaitSeconds_after_54_seconds :
  parseWaitSeconds "after 54 seconds" = None
  /\ parseWaitSeconds
       "For security purposes, you can only request this after 54 seconds." = None
  /\ rateLimitWait "after 54 seconds" = 60
  /\ cooldownUntil
       (onMagicSubmit (SignInFailed 429 (Some "over_email_send_rate_limit")
                         (Some "after 54 seconds")) 0
          (setEmail "player@example.org" (initial None))).1 = 60000.
Proof.
  split; [vm_compute; reflexivity|].
  split; [vm_compute; reflexivity|].
  split; vm_compute; reflexivity.
Qed.

End WaitSeconds.

(** ** The cooldown *)

(** [ceil_div a b] is the least integer [k] with [a <= b * k]. *)
Lemma ceil_div_spec (a b : Z) :
  0 < b -> b * (ceil_div a b - 1) < a <= b * ceil_div a b.
Proof.
  intros Hb. unfold ceil_div.
  pose proof (Z.div_mod (- a) b ltac:(lia)) as Hdm.
  pose proof (Z.mod_pos_bound (- a) b Hb) as Hm.
  nia.
Qed.

Lemma countdown_pos (until now : Z) : now < until -> 0 < countdown until now.
Proof.
  intros H. unfold countdown.
  pose proof (ceil_div_spec (until - now) 1000 ltac:(lia)). lia.
Qed.

Lemma countdown_zero (until now : Z) : until <= now -> countdown until now = 0.
Proof.
  intros H. unfold countdown.
  pose proof (ceil_div_spec (until - now) 1000 ltac:(lia)). lia.
Qed.

Example countdown_54 : countdown 54000 0 = 54.
Proof. reflexivity. Qed.

Example countdown_partial_second : countdown 54000 29500 = 25.
Proof. reflexivity. Qed.

(** The effect that follows a change of the deadline stores the same value
    as a tick. *)
Lemma cooldownEffect_tick (now : Z) (st : AppState) :
  cooldownEffect now st = tick now st.
Proof.
  unfold cooldownEffect, tick. destruct (decide (now < cooldownUntil st)); [done|].
  by rewrite countdown_zero by lia.
Qed.

Lemma onMagicSubmit_waiting resp now st :
  0 < cooldownLeft st -> (onMagicSubmit resp now st).2 = [].
Proof.
  intros H. unfold onMagicSubmit. simpl.
  destruct (decide (email st = "")); [done|].
  by rewrite decide_True by done.
Qed.

Lemma onMagicSubmit_idle resp now st :
  email st <> "" -> cooldownLeft st = 0 ->
  (onMagicSubmit resp now st).2 = [MagicLink (email st)].
Proof.
  intros He Hc. unfold onMagicSubmit. simpl.
  rewrite decide_False by done.
  rewrite decide_False by lia.
  destruct resp as [|status error_code msg]; [done|].
  by destruct (_ || _).
Qed.

(** C9, as stated, fails: the countdown shown is the one the last tick
    stored.  With the deadline at 54000 and the last tick at 53500, at the
    instant 54200, after the deadline and before the next tick of the
    one-second interval, the countdown still reads 1 where
    [max(0, ceil((until - now)/1000))] is 0, the sign-in button is still
    disabled and a submit is refused without a request. *)
Lemma cooldown_display_lags :
  let st := tick 53500 (setEmail "player@example.org" (initial (Some 54000))) in
  cooldownUntil st = 54000
  /\ cooldownUntil st <= 54200
  /\ cooldownLeft st = 1
  /\ Z.max 0 (ceil_div (cooldownUntil st - 54200) 1000) = 0
  /\ cooldownLeft st <> countdown (cooldownUntil st) 54200
  /\ signInDisabled st = true
  /\ (onMagicSubmit SignInOk 54200 st).2 = [].
Proof. vm_compute. repeat split; discriminate. Qed.

(** C9, amended: a tick at the instant [now], and the effect that runs
    when the deadline changes, store [max(0, ceil((until - now)/1000))] as
    the countdown; between ticks the countdown shown is the one of the last
    tick, never less than that value at [now] and at most 1 more when the
    last tick is at most a second old; as long as the deadline lies ahead,
    a submit sends no sign-in request, whenever the last tick was; a tick
    at or after the deadline reads 0 and leaves the stored deadline as it
    is, and sign-in is enabled again for a non-empty email. *)
Theorem cooldown_countdown_gate (st : AppState) (now : Z) (resp : SignInResponse) :
  let deadline := cooldownUntil st in
  (exists k, 1000 * (k - 1) < deadline - now <= 1000 * k
             /\ cooldownLeft (tick now st) = Z.max 0 k
             /\ cooldownLeft (cooldownEffect now st) = Z.max 0 k)
  /\ (forall t, t <= now -> now < deadline ->
        (onMagicSubmit resp now (tick t st)).2 = []
        /\ signInDisabled (tick t st) = true)
  /\ (forall t, t <= now ->
        countdown deadline now <= cooldownLeft (tick t st)
        /\ (now - t <= 1000 ->
            cooldownLeft (tick t st) <= countdown deadline now + 1))
  /\ (deadline <= now ->
        cooldownLeft (tick now st) = 0
        /\ cooldownUntil (tick now st) = deadline
        /\ (email st <> "" ->
            signInDisabled (tick now st) = false
            /\ (onMagicSubmit resp now (tick now st)).2 = [MagicLink (email st)])).
Proof.
  intros deadline. split; [|split; [|split]].
  - exists (ceil_div (deadline - now) 1000). split; [|split; [done|]].
    + apply ceil_div_spec. lia.
    + by rewrite cooldownEffect_tick.
  - intros t Ht Hlt.
    assert (0 < cooldownLeft (tick t st)) as Hpos.
    { simpl. apply countdown_pos. unfold deadline in Hlt. lia. }
    split; [by apply onMagicSubmit_waiting|].
    unfold signInDisabled. rewrite (bool_decide_true (0 < _)) by done.
    by rewrite orb_true_r.
  - intros t Ht. simpl. fold deadline. unfold countdown.
    pose proof (ceil_div_spec (deadline - now) 1000 ltac:(lia)).
    pose proof (ceil_div_spec (deadline - t) 1000 ltac:(lia)).
    split; [lia|]. intros Hlag. lia.
  - intros Hge.
    assert (cooldownLeft (tick now st) = 0) as Hz.
    { simpl. by apply countdown_zero. }
    split; [done|]. split; [done|]. intros He. split.
    + unfold signInDisabled. rewrite Hz. simpl.
      by rewrite bool_decide_false by done.
    + by apply (onMagicSubmit_idle resp now (tick now st)).
Qed.

Lemma cooldown_countdown_gate_witness :
  let st := setEmail "player@example.org" (initial (Some 54000)) in
  ((onMagicSubmit SignInOk 53999 (tick 53000 st)).2 = []
   /\ signInDisabled (tick 53000 st) = true)
  /\ (countdown 54000 54200 <= cooldownLeft (tick 53500 st)
      /\ cooldownLeft (tick 53500 st) <= countdown 54000 54200 + 1)
  /\ cooldownLeft (tick 54000 st) = 0
  /\ cooldownUntil (tick 54000 st) = 54000
  /\ (onMagicSubmit SignInOk 54000 (tick 54000 st)).2
     = [MagicLink "player@example.org"].
Proof.
  intros st. split; [|split].
  - destruct (cooldown_countdown_gate st 53999 SignInOk) as (_ & H & _).
    apply (H 53000); simpl; lia.
  - destruct (cooldown_countdown_gate st 54200 SignInOk) as (_ & _ & H & _).
    destruct (H 53500) as [H1 H2]; [lia|].
    split; [exact H1|]. apply H2. lia.
  - destruct (cooldown_countdown_gate st 54000 SignInOk) as (_ & _ & _ & H).
    destruct H as (H1 & H2 & H3); [simpl; lia|].
    split; [exact H1|]. split; [exact H2|].
    apply H3. discriminate.
Defined.

(** ** The catalog filter *)

Section Filter.

Lemma filter_filter {A} (f g : A -> bool) (l : list A) :
  List.filter g (List.filter f l) = List.filter (fun x => f x && g x) l.
Proof.
  induction l as [|x l IH]; simpl; [done|].
  destruct (f x); simpl; [|done].
  destruct (g x); by rewrite IH.
Qed.

Lemma filter_true {A} (l : list A) : List.filter (fun _ => true) l = l.
Proof. induction l as [|x l IH]; simpl; by rewrite ?IH. Qed.

(** Each stage of the pipeline is a filter, also when it is switched off. *)
Lemma stage_unless {A} (P : Prop) `{Decision P} (f : A -> bool) (l : list A) :
  (if decide P then l else List.filter f l)
  = List.filter (fun x => bool_decide P || f x) l.
Proof.
  destruct (decide P) as [HP|HP].
  - rewrite <- (filter_true l) at 1. apply filter_ext. intros x.
    by rewrite bool_decide_true.
  - apply filter_ext. intros x. by rewrite bool_decide_false.
Qed.

Lemma stage_rule {A} (r : FactionRule) (fa fb : A -> bool) (l : list A) :
  match r with
  | mixed => l
  | axis_only => List.filter fa l
  | allies_only => List.filter fb l
  end
  = List.filter (fun x => match r with
                          | axis_only => fa x
                          | allies_only => fb x
                          | mixed => true
                          end) l.
Proof. destruct r; try done. by rewrite filter_true. Qed.

Lemma stage_when {A} (b : bool) (f : A -> bool) (l : list A) :
  (if b then List.filter f l else l) = List.filter (fun x => negb b || f x) l.
Proof. destruct b; simpl; [done|]. by rewrite filter_true. Qed.


Lemma filter_elem_of {A} (f : A -> bool) (l : list A) (x : A) :
  x ∈ List.filter f l <-> x ∈ l /\ f x = true.
Proof. rewrite !list_elem_of_In. apply filter_In. Qed.








End Filter.

(** ** The recommender *)

Section Recommend.

Lemma deck_get_set (d : Deck) (k : string) (v : Z) :
  deck_get (deck_set d k v) k = v.
Proof.
  unfold deck_get. induction d as [|[k' c] d IH]; simpl.
  - by rewrite decide_True.
  - destruct (decide (k' = k)) as [->|Hne]; simpl.
    + by rewrite decide_True.
    + by rewrite decide_False.
Qed.

Lemma deck_get_set_ne (d : Deck) (k k' : string) (v : Z) :
  k <> k' -> deck_get (deck_set d k v) k' = deck_get d k'.
Proof.
  intros Hne. unfold deck_get. induction d as [|[k0 c] d IH]; simpl.
  - by rewrite decide_False.
  - destruct (decide (k0 = k)) as [->|Hk0]; simpl.
    + by rewrite !decide_False by done.
    + destruct (decide (k0 = k')); [done|exact IH].
Qed.

Lemma addCopies_adds cap limit u first s :
  Forall (addOk cap) (adds s) ->
  (first = false -> 3 <= cap - spent s) ->
  Forall (addOk cap) (adds (addCopies cap limit u first s)).
Proof.
  funelim (addCopies cap limit u first s); intros Hs Hf; simpl; try done.
  - apply Forall_app. split; [done|].
    apply Forall_singleton. split; simpl; [lia|done].
  - match goal with IH : Forall _ _ -> _ |- _ => apply IH end; simpl.
    + apply Forall_app. split; [done|].
      apply Forall_singleton. split; simpl; [lia|done].
    + intros _. lia.
Qed.

Lemma forScored_adds cap own scored s :
  Forall (addOk cap) (adds s) ->
  Forall (addOk cap) (adds (forScored cap own scored s)).
Proof.
  revert s. induction scored as [|u scored IH]; intros s Hs; simpl; [done|].
  assert (Forall (addOk cap) (adds (addCopies cap (maxCopies own u) u true s))).
  { by apply addCopies_adds. }
  destruct (decide _); [done|]. by apply IH.
Qed.

(** The inner loop never takes a unit past its limit. *)
Lemma addCopies_count cap limit u first s k bound :
  (u_id u = k -> limit <= bound) ->
  deck_get (next s) k <= bound ->
  deck_get (next (addCopies cap limit u first s)) k <= bound.
Proof.
  funelim (addCopies cap limit u first s); intros Hl Hs; simpl; try done.
  - destruct (decide (u_id u = k)) as [<-|Hne].
    + rewrite deck_get_set. specialize (Hl eq_refl). lia.
    + by rewrite deck_get_set_ne.
  - match goal with IH : forall k b, (_ -> _) -> _ |- _ => apply IH end; simpl; [done|].
    destruct (decide (u_id u = k)) as [<-|Hne].
    + rewrite deck_get_set. specialize (Hl eq_refl). lia.
    + by rewrite deck_get_set_ne.
Qed.

Lemma forScored_count cap own scored s k bound :
  (forall u, u_id u = k -> maxCopies own u <= bound) ->
  deck_get (next s) k <= bound ->
  deck_get (next (forScored cap own scored s)) k <= bound.
Proof.
  intros Hl. revert s. induction scored as [|u scored IH]; intros s Hs; simpl; [done|].
  assert (deck_get (next (addCopies cap (maxCopies own u) u true s)) k <= bound).
  { apply addCopies_count; [apply Hl | done]. }
  destruct (decide _); [done|]. by apply IH.
Qed.

(** The points spent never pass the cap. *)
Lemma addCopies_spent cap limit u first s :
  spent s <= cap -> spent (addCopies cap limit u first s) <= cap.
Proof.
  funelim (addCopies cap limit u first s); intros Hs; simpl; try done.
  match goal with IH : _ -> _ |- _ => apply IH end. simpl. lia.
Qed.

Lemma forScored_spent cap own scored s :
  spent s <= cap -> spent (forScored cap own scored s) <= cap.
Proof.
  revert s. induction scored as [|u scored IH]; intros s Hs; simpl; [done|].
  pose proof (addCopies_spent cap (maxCopies own u) u true s Hs).
  destruct (decide _); [done|]. by apply IH.
Qed.

(** The scenario of the specification: with a cap of 50, a 45-point unit
    scored first and a 10-point unit second, only the first is taken. *)
Example recommend_45_then_10 :
  let r := recommendRun [ship "ten" "Italy" 10 (9 # 1); ship "big" "Germany" 45 (45 # 1)]
             ∅ 50 in
  next r = [("big", 1)] /\ spent r = 45.
Proof. vm_compute. done. Qed.

(** C3, as stated, fails: with a cap of 50 the recommender adds a 50-point
    unit, and that add leaves no headroom at all. *)
Lemma recommend_adds_below_margin :
  let r := recommendRun [ship "full" "Germany" 50 (9 # 1)] ∅ 50 in
  adds r = [{| ev_unit := "full"; ev_first := true; ev_before := 0; ev_after := 50 |}]
  /\ next r = [("full", 1)]
  /\ ~ Forall (fun ev => 50 - ev_after ev >= 3) (adds r).
Proof.
  vm_compute. split; [done|]. split; [done|].
  intros H. inversion H as [|ev l Hev _]; subst. by apply Hev.
Qed.

(** C3, amended: every copy the recommender adds leaves the points spent
    within the cap (headroom of 0 or more, not of 3 or more); the 3-point
    margin is tested after an add and stops further copies of the same
    candidate: a copy beyond the first of a candidate's visit is added only
    when at least 3 points were free before it. *)
Theorem recommend_adds_within_cap (pool : list Unit)
    (own : gmap string OwnershipRecord) (cap : Z) :
  Forall (fun ev => ev_after ev <= cap
                    /\ (ev_first ev = false -> 3 <= cap - ev_before ev))
    (adds (recommendRun pool own cap)).
Proof.
  unfold recommendRun. apply (forScored_adds cap own). simpl. constructor.
Qed.

End Recommend.

(** ** Deck totals *)

Section Totals.

Lemma findUnit_None (us : list Unit) (k : string) :
  findUnit us k = None <-> k ∉ List.map u_id us.
Proof.
  unfold findUnit. induction us as [|x us IH]; simpl.
  - split; [|done]. intros _ H. by apply elem_of_nil in H.
  - rewrite not_elem_of_cons. destruct (decide (u_id x = k)) as [E|E].
    + rewrite bool_decide_true by done. split; [done|]. by intros [H _].
    + rewrite bool_decide_false by done. rewrite IH. split; [|tauto].
      intros H. split; [congruence|done].
Qed.

Lemma deckItemsOf_cons (us : list Unit) (e : string * Z) (d : Deck) :
  deckItemsOf us (e :: d)
  = match findUnit us e.1 with
    | Some u => (u, e.2) :: deckItemsOf us d
    | None => deckItemsOf us d
    end.
Proof. unfold deckItemsOf. simpl. by destruct (findUnit us e.1). Qed.

Lemma deckItemsOf_inCatalog (us : list Unit) (d : Deck) :
  deckItemsOf us (List.filter (inCatalog us) d) = deckItemsOf us d.
Proof.
  induction d as [|e d IH]; [done|].
  rewrite deckItemsOf_cons. cbn [List.filter].
  destruct (inCatalog us e) eqn:E.
  - by rewrite deckItemsOf_cons, IH.
  - apply bool_decide_eq_false in E. apply findUnit_None in E. by rewrite E.
Qed.

(** One entry with an unknown unit id, anywhere in the deck, changes no
    item of the deck. *)
Lemma deckItemsOf_unknown (us : list Unit) (d1 d2 : Deck) (k : string) (c : Z) :
  (forall u, u ∈ us -> u_id u <> k) ->
  deckItemsOf us (d1 ++ (k, c) :: d2)%list = deckItemsOf us (d1 ++ d2)%list.
Proof.
  intros Hk. unfold deckItemsOf. rewrite !omap_app. f_equal. simpl.
  assert (findUnit us k = None) as ->; [|done].
  apply findUnit_None. intros Hin. apply list_elem_of_fmap in Hin as (u & E & Hu).
  by apply (Hk u).
Qed.

(** C10: entries whose unit id does not occur in the catalog count for
    nothing: the point total, the effective-damage sums and the faction of
    a deck are those of the deck without these entries. *)
Theorem unknown_entries_ignored (st : AppState) :
  let st' := setDeck (List.filter (inCatalog (units st)) (deck st)) st in
  deckItems st = deckItems st'
  /\ deckPoints st = deckPoints st'
  /\ effectiveSumByRange st = effectiveSumByRange st'
  /\ factionOfDeck st = factionOfDeck st'.
Proof.
  intros st'.
  assert (deckItems st = deckItems st') as H.
  { unfold deckItems, st'. simpl. by rewrite deckItemsOf_inCatalog. }
  unfold deckPoints, effectiveSumByRange, factionOfDeck. by rewrite <- H.
Qed.

Example unknown_entry_example :
  let us := [ship "big" "Germany" 45 (45 # 1)] in
  let st := setDeck [("big", 1); ("ghost", 7)]
              {| session := None; email := ""; units := us; ownership := ∅;
                 pointCap := 50; factionRule := axis_only; ownedOnly := false;
                 q := ""; nation := "All"; type := "All"; deck := [];
                 deckName := ""; saving := false; error := ""; ok := "";
                 cooldownUntil := 0; cooldownLeft := 0; stored_cooldown := None |} in
  deckPoints st = 45 /\ factionOfDeck st = Axis
  /\ effectiveSumByRange st = [45 # 1; 45 # 1; 45 # 1; 45 # 1]%Q.
Proof. vm_compute. done. Qed.

End Totals.

(** ** Adding and removing *)

Section Actions.

Lemma deck_get_lookup (d : Deck) (k : string) (c : Z) :
  deck_lookup d k = Some c -> deck_get d k = c.
Proof. unfold deck_get. by intros ->. Qed.

(** C6: with an ownership record of 3 copies and 3 copies already in the
    deck, the add button is disabled and [addToDeck] changes nothing: the
    deck still holds 3 copies. *)
Theorem fourth_copy_refused (st : AppState) (u : Unit) (r : OwnershipRecord) :
  ownership st !! u_id u = Some r ->
  copies r = Some 3 ->
  deck_lookup (deck st) (u_id u) = Some 3 ->
  disabled st u = true
  /\ addToDeck u st = st
  /\ deck_lookup (deck (addToDeck u st)) (u_id u) = Some 3.
Proof.
  intros Ho Hc Hd.
  assert (maxCopies (ownership st) u = 3) as Hmax.
  { unfold maxCopies. rewrite Ho. simpl. by rewrite Hc. }
  assert (addToDeck u st = st) as Hadd.
  { unfold addToDeck. rewrite Hmax, (deck_get_lookup _ _ _ Hd).
    by rewrite decide_True by lia. }
  split; [|split; [done|by rewrite Hadd]].
  unfold disabled. rewrite Hmax, (deck_get_lookup _ _ _ Hd).
  by rewrite (bool_decide_true (3 <= 3)) by lia.
Qed.

Lemma fourth_copy_refused_witness :
  let x := ship "x" "Germany" 10 (9 # 1) in
  let own : gmap string OwnershipRecord :=
    {[ "x" := {| owned := Some true; copies := Some 3 |} ]} in
  let st := stateOf [x] own 150 axis_only [("x", 3)] in
  disabled st x = true
  /\ addToDeck x st = st
  /\ deck_lookup (deck (addToDeck x st)) (u_id x) = Some 3.
Proof.
  intros x own st.
  apply (fourth_copy_refused st x {| owned := Some true; copies := Some 3 |});
    reflexivity.
Defined.

(** C5, as stated, fails: without an ownership record the cap is 99, not
    unlimited.  At 99 copies [addToDeck] refuses the next one, and the
    recommender stops a 1-point unit at 99 copies with 151 points left. *)
Lemma absent_record_capped_at_99 :
  let x := ship "x" "Germany" 1 (9 # 1) in
  let st := stateOf [x] ∅ 250 axis_only [("x", 99)] in
  ownership st !! u_id x = None
  /\ deck_get (deck st) (u_id x) = 99
  /\ addToDeck x st = st
  /\ deck (recommend st) = [("x", 99)]
  /\ spent (recommendRun (filtered st) (ownership st) (pointCap st)) = 99.
Proof. vm_compute. done. Qed.

(** C5, amended: a unit without an ownership record has a copy cap of 99:
    [addToDeck] adds a copy exactly while the deck holds fewer than 99, and
    the recommender gives the unit at most 99 copies. *)
Theorem absent_record_cap_is_99 (st : AppState) (u : Unit) :
  ownership st !! u_id u = None ->
  maxCopies (ownership st) u = 99
  /\ (deck_get (deck st) (u_id u) < 99 ->
      deck_get (deck (addToDeck u st)) (u_id u) = deck_get (deck st) (u_id u) + 1)
  /\ (99 <= deck_get (deck st) (u_id u) -> addToDeck u st = st)
  /\ deck_get (deck (recommend st)) (u_id u) <= 99.
Proof.
  intros Ho.
  assert (forall v, u_id v = u_id u -> maxCopies (ownership st) v = 99) as Hmax.
  { intros v E. unfold maxCopies. by rewrite E, Ho. }
  split; [by apply Hmax|]. split; [|split].
  - intros Hlt. unfold addToDeck. rewrite (Hmax u eq_refl).
    rewrite decide_False by lia. simpl. apply deck_get_set.
  - intros Hge. unfold addToDeck. rewrite (Hmax u eq_refl).
    by rewrite decide_True by lia.
  - unfold recommend, recommendRun. simpl. apply forScored_count.
    + intros v E. by rewrite (Hmax v E).
    + done.
Qed.

Lemma absent_record_cap_is_99_witness :
  let x := ship "x" "Germany" 1 (9 # 1) in
  let st := stateOf [x] ∅ 250 axis_only [("x", 2)] in
  maxCopies (ownership st) x = 99
  /\ deck_get (deck (addToDeck x st)) (u_id x) = 3
  /\ deck_get (deck (recommend st)) (u_id x) <= 99.
Proof.
  intros x st.
  destruct (absent_record_cap_is_99 st x) as (H1 & H2 & _ & H4); [reflexivity|].
  split; [exact H1|]. split; [|exact H4].
  apply H2. vm_compute. reflexivity.
Defined.

(** C1: the claim asks that the deck never costs more than the cap after
    any sequence of adds and removes.  [addToDeck] tests the copy cap only;
    the point cap is tested by [disabled], which guards the add button of
    the catalog panel but not the [+] button of the deck panel.  With a cap
    of 50 and a 30-point unit, two adds give a deck of 60 points. *)
Theorem addToDeck_exceeds_point_cap :
  let x := ship "x" "Germany" 30 (9 # 1) in
  let st0 := stateOf [x] ∅ 50 axis_only [] in
  let st1 := addToDeck x st0 in
  let st2 := addToDeck x st1 in
  rtc deckStep st0 st2
  /\ disabled st0 x = false
  /\ disabled st1 x = true
  /\ deck st2 = [("x", 2)]
  /\ deckPoints st2 = 60
  /\ pointCap st2 = 50.
Proof.
  intros x st0 st1 st2. split.
  - eapply rtc_l; [apply (step_add st0 x)|eapply rtc_l; [apply (step_add st1 x)|done]].
    + apply list_elem_of_singleton. done.
    + apply list_elem_of_singleton. done.
  - vm_compute. done.
Qed.

End Actions.

(** ** Saving *)

Section Save.

Lemma factionOfDeck_empty (st : AppState) : deck st = [] -> factionOfDeck st = Axis.
Proof. unfold factionOfDeck, deckItems. by intros ->. Qed.

Lemma deckPoints_empty (st : AppState) : deck st = [] -> deckPoints st = 0.
Proof. unfold deckPoints, deckItems. by intros ->. Qed.

(** The gate of the add button never reports a faction violation for an
    empty deck. *)
Lemma disabled_empty_deck (st : AppState) (u : Unit) :
  deck st = [] ->
  disabled st u = bool_decide (maxCopies (ownership st) u <= 0)
                  || bool_decide (pointCap st < pts u).
Proof.
  intros Hd. unfold disabled. rewrite (deckPoints_empty st Hd).
  unfold deckItems, deck_get. rewrite Hd. simpl.
  by rewrite andb_false_r, orb_false_r.
Qed.

(** The outcome of the [try] block when a check fails. *)
Lemma saveDeck_try_no_session db st :
  session st = None ->
  saveDeck_try db st [] = (inl "Sign in first (magic link)", []).
Proof. intros H. unfold saveDeck_try. by rewrite H. Qed.

Lemma saveDeck_try_over_cap db st s :
  session st = Some s -> pointCap st < deckPoints st ->
  saveDeck_try db st [] = (inl "Deck exceeds point cap", []).
Proof.
  intros H Hc. unfold saveDeck_try. rewrite H.
  unfold mbind, Try_bind, mret, Try_ret, throwIf. simpl.
  by rewrite bool_decide_true by done.
Qed.

Lemma saveDeck_try_axis db st s :
  session st = Some s -> ~ pointCap st < deckPoints st ->
  factionRule st = axis_only -> factionOfDeck st <> Axis ->
  saveDeck_try db st [] = (inl "Deck violates Axis-only rule", []).
Proof.
  intros H Hc Hr Hf. unfold saveDeck_try. rewrite H.
  unfold mbind, Try_bind, mret, Try_ret, throwIf. simpl.
  rewrite bool_decide_false by done. simpl.
  rewrite (bool_decide_true _ Hr), (bool_decide_true _ Hf). done.
Qed.

Lemma saveDeck_try_allies db st s :
  session st = Some s -> ~ pointCap st < deckPoints st ->
  factionRule st = allies_only -> factionOfDeck st <> Allies ->
  saveDeck_try db st [] = (inl "Deck violates Allies-only rule", []).
Proof.
  intros H Hc Hr Hf. unfold saveDeck_try. rewrite H.
  unfold mbind, Try_bind, mret, Try_ret, throwIf. simpl.
  rewrite bool_decide_false by done. simpl.
  rewrite (bool_decide_false (factionRule st = axis_only)) by congruence. simpl.
  rewrite (bool_decide_true _ Hr), (bool_decide_true _ Hf). done.
Qed.

(** A deck that passes the checks is sent to the endpoint. *)
Lemma saveDeck_valid_posts db st s :
  session st = Some s -> deckPoints st <= pointCap st ->
  (factionRule st = axis_only -> factionOfDeck st = Axis) ->
  (factionRule st = allies_only -> factionOfDeck st = Allies) ->
  exists body rest, (saveDeck db st).2 = PostDecks (access_token s) body :: rest.
Proof.
  intros H Hc Hax Hal. unfold saveDeck, saveDeck_try. rewrite H.
  unfold mbind, Try_bind, mret, Try_ret, throwIf, fetch. simpl.
  rewrite bool_decide_false by lia. simpl.
  assert (bool_decide (factionRule st = axis_only)
          && bool_decide (factionOfDeck st ≠ Axis) = false) as ->.
  { destruct (decide (factionRule st = axis_only)) as [E|E].
    - rewrite (bool_decide_false (_ ≠ _)); [by rewrite andb_false_r|]. auto.
    - by rewrite (bool_decide_false _ E). }
  assert (bool_decide (factionRule st = allies_only)
          && bool_decide (factionOfDeck st ≠ Allies) = false) as ->.
  { destruct (decide (factionRule st = allies_only)) as [E|E].
    - rewrite (bool_decide_false (_ ≠ _)); [by rewrite andb_false_r|]. auto.
    - by rewrite (bool_decide_false _ E). }
  simpl. destruct (decks_response db _) as [text|row]; simpl; [eauto|].
  destruct (deck st) as [|e d]; simpl; [eauto|].
  destruct (deck_units_response db _); simpl; eauto.
Qed.

Lemma saveDeck_of_try db st msg reqs :
  saveDeck_try db st [] = (inl msg, reqs) ->
  saveDeck db st = (saveFailed (formatError msg) st, reqs).
Proof. intros H. unfold saveDeck. by rewrite H. Qed.

(** C7: a deck over the point cap, or not of the faction its rule asks for,
    is not saved: [saveDeck] sends no request, leaves the deck as it is and
    shows the message of the error it raised; with a session, that message
    names the check that failed. *)
Theorem saveDeck_rejects_invalid (db : Persister) (st : AppState) :
  pointCap st < deckPoints st
  \/ (factionRule st = axis_only /\ factionOfDeck st <> Axis)
  \/ (factionRule st = allies_only /\ factionOfDeck st <> Allies) ->
  exists msg,
    saveDeck db st = (saveFailed msg st, [])
    /\ deck (saveDeck db st).1 = deck st
    /\ error (saveDeck db st).1 = msg
    /\ ok (saveDeck db st).1 = ""
    /\ (session st = None -> msg = "Sign in first (magic link)")
    /\ (session st <> None ->
        msg = if decide (pointCap st < deckPoints st) then "Deck exceeds point cap"
              else if decide (factionRule st = axis_only)
                   then "Deck violates Axis-only rule"
                   else "Deck violates Allies-only rule").
Proof.
  intros Hbad.
  assert (forall msg, msg <> "" ->
            saveDeck_try db st [] = (inl msg, []) ->
            saveDeck db st = (saveFailed msg st, [])
            /\ deck (saveDeck db st).1 = deck st
            /\ error (saveDeck db st).1 = msg
            /\ ok (saveDeck db st).1 = "") as Hfail.
  { intros msg Hne Htry. rewrite (saveDeck_of_try db st msg [] Htry).
    unfold formatError. by rewrite decide_False. }
  destruct (session st) as [s|] eqn:Hs.
  - destruct (decide (pointCap st < deckPoints st)) as [Hc|Hc].
    + exists "Deck exceeds point cap".
      destruct (Hfail "Deck exceeds point cap") as (H1 & H2 & H3 & H4);
        [done|by apply (saveDeck_try_over_cap db st s)|].
      repeat split; done.
    + destruct Hbad as [Hbad|[[Hr Hf]|[Hr Hf]]]; [done| |].
      * exists "Deck violates Axis-only rule".
        destruct (Hfail "Deck violates Axis-only rule") as (H1 & H2 & H3 & H4);
          [done|by apply (saveDeck_try_axis db st s)|].
        rewrite decide_True by done. repeat split; done.
      * exists "Deck violates Allies-only rule".
        destruct (Hfail "Deck violates Allies-only rule") as (H1 & H2 & H3 & H4);
          [done|by apply (saveDeck_try_allies db st s)|].
        rewrite decide_False by congruence. repeat split; done.
  - exists "Sign in first (magic link)".
    destruct (Hfail "Sign in first (magic link)") as (H1 & H2 & H3 & H4);
      [done|by apply saveDeck_try_no_session|].
    repeat split; done.
Qed.

Lemma saveDeck_rejects_invalid_witness :
  let x := ship "x" "Germany" 30 (9 # 1) in
  let st := setSession (Some {| access_token := "token"; user_id := "player" |})
              (stateOf [x] ∅ 50 axis_only [("x", 2)]) in
  exists msg,
    saveDeck acceptAll st = (saveFailed msg st, [])
    /\ deck (saveDeck acceptAll st).1 = deck st
    /\ error (saveDeck acceptAll st).1 = msg
    /\ ok (saveDeck acceptAll st).1 = ""
    /\ (session st = None -> msg = "Sign in first (magic link)")
    /\ (session st <> None ->
        msg = if decide (pointCap st < deckPoints st) then "Deck exceeds point cap"
              else if decide (factionRule st = axis_only)
                   then "Deck violates Axis-only rule"
                   else "Deck violates Allies-only rule").
Proof.
  intros x st. apply (saveDeck_rejects_invalid acceptAll st).
  left. vm_compute. reflexivity.
Defined.

(** C4: the claim asks that an empty deck raises no faction violation under
    any rule.  An empty deck classifies as Axis, so under the Allies-only
    rule [saveDeck] rejects it as violating that rule and sends nothing;
    the gate of the add button, which tests that the deck is not empty
    before it compares factions, does not. *)
Theorem saveDeck_empty_deck_allies_only :
  let st := setSession (Some {| access_token := "token"; user_id := "player" |})
              (stateOf [] ∅ 150 allies_only []) in
  factionOfDeck st = Axis
  /\ saveDeck acceptAll st = (saveFailed "Deck violates Allies-only rule" st, [])
  /\ error (saveDeck acceptAll st).1 = "Deck violates Allies-only rule"
  /\ (forall u, disabled st u = bool_decide (maxCopies (ownership st) u <= 0)
                                || bool_decide (pointCap st < pts u)).
Proof.
  intros st. split; [reflexivity|]. split; [vm_compute; reflexivity|].
  split; [vm_compute; reflexivity|].
  intros u. by apply disabled_empty_deck.
Qed.

(** The same holds of every signed-in session with an empty deck. *)
Lemma saveDeck_empty_allies (db : Persister) (st : AppState) (s : Session) :
  session st = Some s -> deck st = [] -> factionRule st = allies_only ->
  0 <= pointCap st ->
  saveDeck db st = (saveFailed "Deck violates Allies-only rule" st, []).
Proof.
  intros Hs Hd Hr Hc.
  rewrite (saveDeck_of_try db st "Deck violates Allies-only rule" []); [done|].
  apply (saveDeck_try_allies db st s); try done.
  - rewrite (deckPoints_empty st Hd). lia.
  - by rewrite (factionOfDeck_empty st Hd).
Qed.

(** Under the Axis-only rule and under the mixed rule an empty deck passes
    the checks. *)
Lemma saveDeck_empty_other_rules (db : Persister) (st : AppState) (s : Session) :
  session st = Some s -> deck st = [] -> factionRule st <> allies_only ->
  0 <= pointCap st ->
  exists body rest, (saveDeck db st).2 = PostDecks (access_token s) body :: rest.
Proof.
  intros Hs Hd Hr Hc. apply saveDeck_valid_posts; try done.
  - rewrite (deckPoints_empty st Hd). lia.
  - intros _. by apply factionOfDeck_empty.
Qed.

End Save.

(** ** The point cap along gated adds *)

Section PointCap.

Lemma pointsOf_acc (items : list (Unit * Z)) (a : Z) :
  fold_left (fun acc x => acc + pts x.1 * x.2) items a = a + pointsOf items.
Proof.
  unfold pointsOf. revert a. induction items as [|x l IH]; intros a; simpl; [lia|].
  rewrite (IH (a + _)), (IH (0 + _)). lia.
Qed.

Lemma points_cons (us : list Unit) (k : string) (c : Z) (d : Deck) :
  pointsOf (deckItemsOf us ((k, c) :: d))
  = weight us k * c + pointsOf (deckItemsOf us d).
Proof.
  rewrite deckItemsOf_cons. unfold weight. simpl.
  destruct (findUnit us k) as [u|]; [|lia].
  unfold pointsOf at 1. simpl. rewrite pointsOf_acc. lia.
Qed.

Lemma points_set (us : list Unit) (d : Deck) (k : string) (v : Z) :
  pointsOf (deckItemsOf us (deck_set d k v))
  = pointsOf (deckItemsOf us d) + weight us k * (v - deck_get d k).
Proof.
  induction d as [|[k' c] d IH]; cbn [deck_set].
  - rewrite points_cons. change (pointsOf (deckItemsOf us [])) with 0.
    change (deck_get [] k) with 0. lia.
  - unfold deck_get in *. cbn [deck_lookup]. destruct (decide (k' = k)) as [->|Hne].
    + rewrite !points_cons. simpl. lia.
    + rewrite !points_cons, IH. lia.
Qed.

Lemma points_delete (us : list Unit) (d : Deck) (k : string) :
  Forall (fun e => 0 <= e.2) d -> 0 <= weight us k ->
  pointsOf (deckItemsOf us (deck_delete d k)) <= pointsOf (deckItemsOf us d).
Proof.
  intros Hd Hw. unfold deck_delete. induction Hd as [|[k' c] d Hc Hd IH]; [done|].
  simpl in Hc. destruct (decide (k' = k)) as [->|Hne].
  - rewrite filter_cons_False by (intros H; by apply H). rewrite points_cons. nia.
  - rewrite filter_cons_True by done. rewrite !points_cons. lia.
Qed.

Lemma deck_get_nonneg (d : Deck) (k : string) :
  Forall (fun e => 0 <= e.2) d -> 0 <= deck_get d k.
Proof.
  unfold deck_get. induction 1 as [|[k' c] d Hc Hd IH]; simpl; [done|].
  by destruct (decide (k' = k)).
Qed.

Lemma deck_set_counts (d : Deck) (k : string) (v : Z) :
  Forall (fun e => 0 <= e.2) d -> 0 <= v ->
  Forall (fun e => 0 <= e.2) (deck_set d k v).
Proof.
  intros Hd Hv. induction Hd as [|[k' c] d Hc Hd IH]; simpl.
  - by constructor.
  - destruct (decide (k' = k)); by constructor.
Qed.

Lemma findUnit_elem (us : list Unit) (u : Unit) :
  NoDup (List.map u_id us) -> u ∈ us -> findUnit us (u_id u) = Some u.
Proof.
  unfold findUnit. induction us as [|x us IH]; simpl; intros Hnd Hin.
  - by apply elem_of_nil in Hin.
  - apply NoDup_cons in Hnd as [Hx Hnd].
    apply elem_of_cons in Hin as [->|Hin].
    + by rewrite bool_decide_true.
    + rewrite bool_decide_false; [by apply IH|].
      intros E. apply Hx. rewrite E. apply list_elem_of_fmap. eauto.
Qed.

Lemma weight_nonneg (us : list Unit) (k : string) :
  Forall (fun u => 0 <= pts u) us -> 0 <= weight us k.
Proof.
  intros Hus. unfold weight, findUnit.
  destruct (find _ us) as [u|] eqn:E; [|done].
  apply find_some in E as [Hin _].
  rewrite Forall_forall in Hus. apply Hus. by apply list_elem_of_In.
Qed.

(** The gate lets an add through only if the total stays within the cap. *)
Lemma enabled_within_cap (st : AppState) (u : Unit) :
  disabled st u = false -> deckPoints st + pts u <= pointCap st.
Proof.
  unfold disabled. intros H.
  apply orb_false_iff in H as [H _]. apply orb_false_iff in H as [_ H].
  apply bool_decide_eq_false in H. lia.
Qed.

Lemma gatedStep_keeps (st st' : AppState) :
  catalogOk (units st) -> withinCap st -> gatedStep st st' ->
  units st' = units st /\ pointCap st' = pointCap st /\ withinCap st'.
Proof.
  intros [Hnd Hpts] [Hcap Hcnt] Hstep.
  destruct Hstep as [st u Hin Hen|st u Hin].
  - unfold addToDeck. destruct (decide _) as [Hfull|Hroom]; [done|].
    split; [done|]. split; [done|]. split.
    + unfold deckPoints, deckItems. simpl. rewrite points_set.
      unfold weight. rewrite (findUnit_elem _ _ Hnd Hin).
      pose proof (enabled_within_cap st u Hen) as Hgate.
      unfold deckPoints, deckItems in Hgate. lia.
    + simpl. apply deck_set_counts; [done|].
      pose proof (deck_get_nonneg (deck st) (u_id u) Hcnt). lia.
  - unfold removeFromDeck. destruct (decide _) as [Hlast|Hmore].
    + split; [done|]. split; [done|]. split.
      * unfold deckPoints, deckItems. simpl.
        pose proof (points_delete (units st) (deck st) (u_id u) Hcnt
                      (weight_nonneg _ _ Hpts)).
        unfold deckPoints, deckItems in Hcap. lia.
      * simpl. unfold deck_delete. rewrite Forall_forall in Hcnt |- *.
        intros e He. apply list_elem_of_filter in He as [_ He]. by apply Hcnt.
    + split; [done|]. split; [done|]. split.
      * unfold deckPoints, deckItems. simpl. rewrite points_set.
        pose proof (weight_nonneg (units st) (u_id u) Hpts).
        unfold deckPoints, deckItems in Hcap. nia.
      * simpl. apply deck_set_counts; [done|]. lia.
Qed.

(** From an empty deck, adds that pass the gate and removes never take the
    deck over the point cap. *)
Lemma gated_adds_within_cap (st0 st : AppState) :
  catalogOk (units st0) -> deck st0 = [] -> 0 <= pointCap st0 ->
  rtc gatedStep st0 st -> deckPoints st <= pointCap st.
Proof.
  intros Hcat Hd Hc Hsteps.
  assert (withinCap st0) as Hinv.
  { split; [|by rewrite Hd]. unfold deckPoints, deckItems. by rewrite Hd. }
  revert Hcat Hinv. clear Hd Hc.
  induction Hsteps as [st|st st1 st2 Hstep _ IH]; intros Hcat Hinv.
  - apply Hinv.
  - destruct (gatedStep_keeps st st1 Hcat Hinv Hstep) as (Hu & _ & Hinv1).
    apply IH; [by rewrite Hu|done].
Qed.

End PointCap.

(** * Further properties of the code *)

(** ** The deck as a map *)

Section DeckMap.

Lemma setDeck_deck (st : AppState) : setDeck (deck st) st = st.
Proof. by destruct st. Qed.

Lemma setDeck_setDeck (d d' : Deck) (st : AppState) :
  setDeck d (setDeck d' st) = setDeck d st.
Proof. done. Qed.

Lemma deck_lookup_None (d : Deck) (k : string) :
  deck_lookup d k = None <-> k ∉ List.map fst d.
Proof.
  induction d as [|[k' c] d IH]; simpl.
  - split; [|done]. intros _ H. by apply elem_of_nil in H.
  - rewrite not_elem_of_cons. destruct (decide (k' = k)) as [->|Hne].
    + split; [done|]. by intros [H _].
    + rewrite IH. split; [|tauto]. intros H. split; [congruence|done].
Qed.

Lemma deck_lookup_elem (d : Deck) (k : string) (c : Z) :
  deck_lookup d k = Some c -> (k, c) ∈ d.
Proof.
  induction d as [|[k' c'] d IH]; simpl; [done|].
  destruct (decide (k' = k)) as [->|Hne].
  - intros [= ->]. apply list_elem_of_here.
  - intros H. apply list_elem_of_further. by apply IH.
Qed.

Lemma deck_set_absent (d : Deck) (k : string) (v : Z) :
  deck_lookup d k = None -> deck_set d k v = (d ++ [(k, v)])%list.
Proof.
  induction d as [|[k' c] d IH]; simpl; [done|].
  destruct (decide (k' = k)); [done|]. intros H. by rewrite IH.
Qed.

Lemma deck_set_present (d : Deck) (k : string) (c v : Z) :
  deck_lookup d k = Some c -> deck_set (deck_set d k v) k c = d.
Proof.
  induction d as [|[k' c'] d IH]; simpl; [done|].
  destruct (decide (k' = k)) as [->|Hne]; simpl.
  - intros [= ->]. by rewrite decide_True.
  - intros H. rewrite decide_False by done. by rewrite IH.
Qed.

Lemma deck_delete_absent (d : Deck) (k : string) :
  deck_lookup d k = None -> deck_delete d k = d.
Proof.
  unfold deck_delete. induction d as [|[k' c] d IH]; simpl; [done|].
  destruct (decide (k' = k)) as [->|Hne]; [done|].
  intros H. rewrite filter_cons_True by done. by rewrite IH.
Qed.

Lemma deck_delete_last (d : Deck) (k : string) (v : Z) :
  deck_delete (d ++ [(k, v)])%list k = deck_delete d k.
Proof.
  unfold deck_delete. rewrite filter_app.
  rewrite (filter_cons_False _ (k, v)) by (intros H; by apply H).
  rewrite filter_nil. apply app_nil_r.
Qed.

Lemma deck_get_delete_ne (d : Deck) (k k' : string) :
  k <> k' -> deck_get (deck_delete d k) k' = deck_get d k'.
Proof.
  intros Hne. unfold deck_get, deck_delete.
  induction d as [|[k0 c] d IH]; [done|].
  destruct (decide (k0 = k)) as [->|Hk0].
  - rewrite filter_cons_False by (intros H; by apply H).
    cbn [deck_lookup]. by rewrite decide_False.
  - rewrite filter_cons_True by done. cbn [deck_lookup].
    destruct (decide (k0 = k')); [done|exact IH].
Qed.

Lemma deck_get_delete (d : Deck) (k : string) : deck_get (deck_delete d k) k = 0.
Proof.
  unfold deck_get, deck_delete. induction d as [|[k0 c] d IH]; [done|].
  destruct (decide (k0 = k)) as [->|Hk0].
  - by rewrite filter_cons_False by (intros H; by apply H).
  - rewrite filter_cons_True by done. cbn [deck_lookup].
    by rewrite decide_False.
Qed.

Lemma deck_set_Forall (P : string * Z -> Prop) (d : Deck) (k : string) (v : Z) :
  Forall P d -> P (k, v) -> Forall P (deck_set d k v).
Proof.
  intros Hd Hv. induction Hd as [|[k' c] d Hc Hd IH]; simpl.
  - by constructor.
  - destruct (decide (k' = k)); by constructor.
Qed.

Lemma deck_delete_Forall (P : string * Z -> Prop) (d : Deck) (k : string) :
  Forall P d -> Forall P (deck_delete d k).
Proof.
  unfold deck_delete. rewrite !Forall_forall. intros Hd e He.
  apply list_elem_of_filter in He as [_ He]. by apply Hd.
Qed.

Lemma deck_set_keys (d : Deck) (k : string) (v : Z) :
  List.map fst (deck_set d k v)
  = match deck_lookup d k with
    | Some _ => List.map fst d
    | None => (List.map fst d ++ [k])%list
    end.
Proof.
  induction d as [|[k' c] d IH]; simpl; [done|].
  destruct (decide (k' = k)) as [->|Hne]; simpl; [done|].
  rewrite IH. by destruct (deck_lookup d k).
Qed.

Lemma deck_set_NoDup (d : Deck) (k : string) (v : Z) :
  NoDup (List.map fst d) -> NoDup (List.map fst (deck_set d k v)).
Proof.
  intros Hd. rewrite deck_set_keys. destruct (deck_lookup d k) eqn:E; [done|].
  apply NoDup_app. split; [done|]. split.
  - intros x Hx Hk. apply list_elem_of_singleton in Hk as ->.
    by apply deck_lookup_None in E.
  - apply NoDup_singleton.
Qed.

Lemma deck_delete_NoDup (d : Deck) (k : string) :
  NoDup (List.map fst d) -> NoDup (List.map fst (deck_delete d k)).
Proof.
  unfold deck_delete. induction d as [|[k' c] d IH]; simpl; [done|].
  intros Hd. apply NoDup_cons in Hd as [Hk' Hd].
  destruct (decide (k' = k)) as [->|Hne].
  - rewrite filter_cons_False by (intros H; by apply H). by apply IH.
  - rewrite filter_cons_True by done. simpl. apply NoDup_cons. split; [|by apply IH].
    intros Hin. apply Hk'. apply list_elem_of_fmap in Hin as ([k0 c0] & E & Hin).
    apply list_elem_of_filter in Hin as [_ Hin]. simpl in E. subst.
    apply list_elem_of_fmap. by exists (k0, c0).
Qed.

(** In a deck whose counts are all positive, a count of 0 means that the
    unit has no entry. *)
Lemma deck_get_zero (d : Deck) (k : string) :
  Forall (fun e => 1 <= e.2) d -> deck_get d k <= 0 -> deck_lookup d k = None.
Proof.
  intros Hd Hz. unfold deck_get in Hz.
  destruct (deck_lookup d k) as [c|] eqn:E; [|done].
  apply deck_lookup_elem in E. rewrite Forall_forall in Hd.
  specialize (Hd _ E). simpl in *. lia.
Qed.

(** X1: adding a copy and removing it again gives back the deck, entry for
    entry, whenever the add was not refused by the copy cap. *)
Theorem add_then_remove_restores (st : AppState) (u : Unit) :
  Forall (fun e => 1 <= e.2) (deck st) ->
  deck_get (deck st) (u_id u) < maxCopies (ownership st) u ->
  removeFromDeck u (addToDeck u st) = st.
Proof.
  intros Hd Hroom. unfold addToDeck. rewrite decide_False by lia.
  unfold removeFromDeck. cbn [deck setDeck]. rewrite deck_get_set.
  destruct (decide (deck_get (deck st) (u_id u) + 1 <= 1)) as [Hone|Hmore].
  - assert (deck_lookup (deck st) (u_id u) = None) as Hnone.
    { apply deck_get_zero; [done|lia]. }
    rewrite (deck_set_absent _ _ _ Hnone), deck_delete_last,
      (deck_delete_absent _ _ Hnone), setDeck_setDeck.
    apply setDeck_deck.
  - destruct (deck_lookup (deck st) (u_id u)) as [c|] eqn:E.
    + rewrite (deck_get_lookup _ _ _ E).
      replace (c + 1 - 1) with c by lia.
      rewrite (deck_set_present _ _ _ _ E), setDeck_setDeck. apply setDeck_deck.
    + unfold deck_get in Hmore. rewrite E in Hmore. simpl in Hmore. lia.
Qed.

Lemma add_then_remove_restores_witness :
  let x := ship "x" "Germany" 10 (9 # 1) in
  let st := stateOf [x] ∅ 150 axis_only [("y", 2); ("x", 1)] in
  removeFromDeck x (addToDeck x st) = st.
Proof.
  intros x st. apply (add_then_remove_restores st x).
  - repeat constructor; simpl; lia.
  - vm_compute. reflexivity.
Defined.

(** X2: removing a unit that has no entry in the deck changes nothing. *)
Theorem remove_absent_noop (st : AppState) (u : Unit) :
  deck_lookup (deck st) (u_id u) = None -> removeFromDeck u st = st.
Proof.
  intros Hnone. unfold removeFromDeck.
  assert (deck_get (deck st) (u_id u) = 0) as Hz.
  { unfold deck_get. by rewrite Hnone. }
  rewrite Hz, decide_True by lia.
  rewrite (deck_delete_absent _ _ Hnone). apply setDeck_deck.
Qed.

Lemma remove_absent_noop_witness :
  let x := ship "x" "Germany" 10 (9 # 1) in
  let st := stateOf [x] ∅ 150 axis_only [("y", 2)] in
  removeFromDeck x st = st.
Proof. intros x st. apply (remove_absent_noop st x). reflexivity. Defined.

Lemma deckStep_keeps (st st' : AppState) :
  deckStep st st' ->
  wellFormed (ownership st) (deck st) ->
  ownership st' = ownership st /\ units st' = units st
  /\ pointCap st' = pointCap st
  /\ wellFormed (ownership st') (deck st').
Proof.
  intros Hstep [Hnd Hall]. destruct Hstep as [st u _|st u _].
  - unfold addToDeck. destruct (decide _) as [Hfull|Hroom]; [done|].
    split; [done|]. split; [done|]. split; [done|]. split; simpl.
    + by apply deck_set_NoDup.
    + apply deck_set_Forall; [done|]. simpl.
      assert (0 <= deck_get (deck st) (u_id u)) as Hpos.
      { apply deck_get_nonneg. eapply Forall_impl; [exact Hall|].
        intros e [He _]. lia. }
      unfold maxCopies in Hroom. unfold copyCap. lia.
  - unfold removeFromDeck. destruct (decide _) as [Hlast|Hmore].
    + split; [done|]. split; [done|]. split; [done|]. split; simpl.
      * by apply deck_delete_NoDup.
      * by apply deck_delete_Forall.
    + split; [done|]. split; [done|]. split; [done|]. split; simpl.
      * by apply deck_set_NoDup.
      * apply deck_set_Forall; [done|]. simpl.
        destruct (deck_lookup (deck st) (u_id u)) as [c|] eqn:E.
        -- rewrite (deck_get_lookup _ _ _ E) in *.
           apply deck_lookup_elem in E. rewrite Forall_forall in Hall.
           specialize (Hall _ E). simpl in Hall. lia.
        -- unfold deck_get in Hmore. rewrite E in Hmore. simpl in Hmore. lia.
Qed.

(** X3: whatever adds and removes are applied to an empty deck, from
    either panel, the deck lists every unit id once, with a count of at
    least 1 and at most the copy cap of the unit. *)
Theorem reachable_deck_well_formed (st0 st : AppState) :
  deck st0 = [] -> rtc deckStep st0 st ->
  wellFormed (ownership st0) (deck st)
  /\ forall u, deck_get (deck st) (u_id u) <= Z.max 0 (maxCopies (ownership st0) u).
Proof.
  intros Hd Hsteps.
  assert (wellFormed (ownership st0) (deck st0)) as H0.
  { rewrite Hd. split; simpl; constructor. }
  assert (ownership st = ownership st0 /\ wellFormed (ownership st) (deck st)) as [Ho Hwf].
  { clear Hd. induction Hsteps as [st|st st1 st2 Hstep _ IH]; [done|].
    destruct (deckStep_keeps st st1 Hstep H0) as (Ho & _ & _ & H1).
    destruct (IH H1) as [Ho2 H2]. split; [congruence|done]. }
  rewrite Ho in Hwf. split; [done|].
  intros u. unfold deck_get.
  destruct (deck_lookup (deck st) (u_id u)) as [c|] eqn:E; simpl; [|lia].
  apply deck_lookup_elem in E. destruct Hwf as [_ Hall].
  rewrite Forall_forall in Hall. specialize (Hall _ E). simpl in Hall.
  unfold maxCopies. unfold copyCap in Hall. lia.
Qed.

Lemma reachable_deck_well_formed_witness :
  let x := ship "x" "Germany" 30 (9 # 1) in
  let own : gmap string OwnershipRecord :=
    {[ "x" := {| owned := Some true; copies := Some 2 |} ]} in
  let st0 := stateOf [x] own 50 axis_only [] in
  let st := addToDeck x (addToDeck x (addToDeck x st0)) in
  wellFormed own (deck st)
  /\ forall u, deck_get (deck st) (u_id u) <= Z.max 0 (maxCopies own u).
Proof.
  intros x own st0 st. apply (reachable_deck_well_formed st0 st); [reflexivity|].
  eapply rtc_l; [apply (step_add st0 x); apply list_elem_of_here|].
  eapply rtc_l; [apply (step_add (addToDeck x st0) x); apply list_elem_of_here|].
  eapply rtc_l;
    [apply (step_add (addToDeck x (addToDeck x st0)) x); apply list_elem_of_here|].
  apply rtc_refl.
Defined.

End DeckMap.

(** ** The totals along adds and removes *)

Section TotalsTrack.

(** X4: when the Add button of a unit is enabled, [addToDeck] adds exactly
    one copy of that unit and changes the count of no other unit. *)
Theorem enabled_add_adds_one (st : AppState) (u : Unit) :
  disabled st u = false ->
  deck_get (deck (addToDeck u st)) (u_id u) = deck_get (deck st) (u_id u) + 1
  /\ forall k, k <> u_id u ->
       deck_get (deck (addToDeck u st)) k = deck_get (deck st) k.
Proof.
  intros Hen. unfold disabled in Hen.
  apply orb_false_iff in Hen as [Hen _]. apply orb_false_iff in Hen as [Hen _].
  apply bool_decide_eq_false in Hen.
  unfold addToDeck. rewrite decide_False by done. simpl. split.
  - apply deck_get_set.
  - intros k Hk. by apply deck_get_set_ne.
Qed.

Lemma enabled_add_adds_one_witness :
  let x := ship "x" "Germany" 10 (9 # 1) in
  let st := stateOf [x] ∅ 150 axis_only [("y", 2); ("x", 1)] in
  deck_get (deck (addToDeck x st)) (u_id x) = deck_get (deck st) (u_id x) + 1
  /\ forall k, k <> u_id x ->
       deck_get (deck (addToDeck x st)) k = deck_get (deck st) k.
Proof.
  intros x st. apply (enabled_add_adds_one st x). vm_compute. reflexivity.
Defined.

Lemma points_delete_exact (us : list Unit) (d : Deck) (k : string) :
  NoDup (List.map fst d) ->
  pointsOf (deckItemsOf us (deck_delete d k))
  = pointsOf (deckItemsOf us d) - weight us k * deck_get d k.
Proof.
  induction d as [|[k' c] d IH]; intros Hnd.
  - change (deck_delete [] k) with (@nil (string * Z)).
    change (deck_get [] k) with 0. lia.
  - simpl in Hnd. apply NoDup_cons in Hnd as [Hk' Hnd].
    unfold deck_delete, deck_get in *. cbn [deck_lookup].
    destruct (decide (k' = k)) as [->|Hne].
    + rewrite filter_cons_False by (intros H; by apply H).
      apply deck_lookup_None in Hk'.
      pose proof (deck_delete_absent d k Hk') as Hsame. unfold deck_delete in Hsame.
      rewrite Hsame, points_cons. simpl. lia.
    + rewrite filter_cons_True by done. rewrite !points_cons, IH by done. lia.
Qed.

(** X5: the point total follows the deck: a copy that [addToDeck] adds
    raises the total by the points of the unit, a copy that
    [removeFromDeck] takes away lowers it by the same amount. *)
Theorem deckPoints_tracks_deck (st : AppState) (u : Unit) :
  NoDup (List.map u_id (units st)) -> u ∈ units st ->
  NoDup (List.map fst (deck st)) ->
  (deck_get (deck st) (u_id u) < maxCopies (ownership st) u ->
   deckPoints (addToDeck u st) = deckPoints st + pts u)
  /\ (1 <= deck_get (deck st) (u_id u) ->
      deckPoints (removeFromDeck u st) = deckPoints st - pts u).
Proof.
  intros Hids Hin Hkeys.
  assert (weight (units st) (u_id u) = pts u) as Hw.
  { unfold weight. by rewrite (findUnit_elem _ _ Hids Hin). }
  split.
  - intros Hroom. unfold addToDeck. rewrite decide_False by lia.
    unfold deckPoints, deckItems. simpl. rewrite points_set, Hw. lia.
  - intros Hcur. unfold removeFromDeck.
    destruct (decide _) as [Hlast|Hmore]; unfold deckPoints, deckItems; simpl.
    + rewrite points_delete_exact, Hw by done.
      replace (deck_get (deck st) (u_id u)) with 1 by lia. lia.
    + rewrite points_set, Hw. lia.
Qed.

Lemma deckPoints_tracks_deck_witness :
  let x := ship "x" "Germany" 10 (9 # 1) in
  let st := stateOf [x] ∅ 150 axis_only [("x", 2)] in
  deckPoints (addToDeck x st) = deckPoints st + pts x
  /\ deckPoints (removeFromDeck x st) = deckPoints st - pts x.
Proof.
  intros x st.
  destruct (deckPoints_tracks_deck st x) as [Hadd Hrem].
  - apply (bool_decide_unpack _). vm_compute. exact I.
  - apply list_elem_of_here.
  - apply (bool_decide_unpack _). vm_compute. exact I.
  - split; [apply Hadd|apply Hrem]; vm_compute; [reflexivity|discriminate].
Defined.

Lemma forallb_remove_dups {A B} `{EqDecision B} (f : B -> bool) (g : A -> B)
    (items : list A) :
  forallb f (remove_dups (List.map g items)) = true
  <-> Forall (fun x => f (g x) = true) items.
Proof.
  rewrite forallb_forall, Forall_forall. split.
  - intros H x Hx. apply H. rewrite <- list_elem_of_In, elem_of_remove_dups.
    apply list_elem_of_fmap. eauto.
  - intros H y Hy. rewrite <- list_elem_of_In, elem_of_remove_dups in Hy.
    apply list_elem_of_fmap in Hy as (x & -> & Hx). by apply H.
Qed.

(** No nation is on both sides. *)
Lemma axis_allies_disjoint (n : option string) :
  has axis n = true -> has allies n = true -> False.
Proof.
  destruct n as [s|]; [|done]. simpl. rewrite !bool_decide_eq_true.
  assert (Forall (fun a => a ∉ allies) axis) as H.
  { apply (bool_decide_unpack _). vm_compute. exact I. }
  rewrite Forall_forall in H. intros Hax Hal. exact (H s Hax Hal).
Qed.

(** X6: the faction of a deck is Axis exactly when the nation of every
    item is an Axis nation (so for an empty deck), Allies exactly when
    that fails and every nation is an Allies nation, and Mixed otherwise;
    a deck classified as Allies has at least one item. *)
Theorem factionOf_characterised (items : list (Unit * Z)) :
  let allAxis := Forall (fun x => has axis (u_nation x.1) = true) items in
  let allAllies := Forall (fun x => has allies (u_nation x.1) = true) items in
  (factionOf items = Axis <-> allAxis)
  /\ (factionOf items = Allies <-> ~ allAxis /\ allAllies)
  /\ (factionOf items = Mixed <-> ~ allAxis /\ ~ allAllies)
  /\ (factionOf items = Allies <-> items <> [] /\ allAllies).
Proof.
  intros allAxis allAllies.
  pose proof (forallb_remove_dups (has axis) (fun x : Unit * Z => u_nation x.1) items) as Hax.
  pose proof (forallb_remove_dups (has allies) (fun x : Unit * Z => u_nation x.1) items) as Hal.
  fold allAxis in Hax. fold allAllies in Hal.
  assert (items <> [] -> allAllies -> ~ allAxis) as Hdis.
  { unfold allAxis, allAllies. destruct items as [|x items]; [done|].
    intros _ H1 H2. apply Forall_cons in H1 as [H1 _]. apply Forall_cons in H2 as [H2 _].
    by apply (axis_allies_disjoint (u_nation x.1)). }
  assert (items = [] -> allAxis) as Hnil.
  { intros ->. constructor. }
  unfold factionOf.
  destruct (forallb (has axis) _) eqn:Eax;
    [|destruct (forallb (has allies) _) eqn:Eal].
  - assert allAxis as H by (by apply Hax).
    repeat split; try done; try tauto.
  - assert (~ allAxis) as H by (intros H; apply Hax in H; congruence).
    assert allAllies as H' by (by apply Hal).
    repeat split; try done; try tauto.
  - assert (~ allAxis) as H by (intros H; apply Hax in H; congruence).
    assert (~ allAllies) as H' by (intros H'; apply Hal in H'; congruence).
    repeat split; try done; try tauto.
Qed.

End TotalsTrack.

(** ** The totals and the order of the entries *)

Section TotalsOrder.

Lemma deckItemsOf_Permutation (us : list Unit) (d d' : Deck) :
  d ≡ₚ d' -> deckItemsOf us d ≡ₚ deckItemsOf us d'.
Proof. intros H. unfold deckItemsOf. by rewrite H. Qed.

Lemma pointsOf_cons (x : Unit * Z) (items : list (Unit * Z)) :
  pointsOf (x :: items) = pts x.1 * x.2 + pointsOf items.
Proof. unfold pointsOf at 1. simpl. rewrite pointsOf_acc. lia. Qed.

Lemma pointsOf_Permutation (items items' : list (Unit * Z)) :
  items ≡ₚ items' -> pointsOf items = pointsOf items'.
Proof.
  induction 1 as [|x l l' _ IH|x y l|l1 l2 l3 _ IH1 _ IH2].
  - done.
  - by rewrite !pointsOf_cons, IH.
  - rewrite !pointsOf_cons. lia.
  - congruence.
Qed.

Lemma factionOf_Permutation (items items' : list (Unit * Z)) :
  items ≡ₚ items' -> factionOf items = factionOf items'.
Proof.
  intros Hp. unfold factionOf.
  assert (forall set,
            forallb (has set) (remove_dups (List.map (fun x : Unit * Z => u_nation x.1) items))
            = forallb (has set) (remove_dups (List.map (fun x : Unit * Z => u_nation x.1) items')))
    as Hsame.
  { intros set. apply eq_true_iff_eq.
    rewrite !(forallb_remove_dups (has set) (fun x : Unit * Z => u_nation x.1)).
    by rewrite Hp. }
  by rewrite !Hsame.
Qed.

(** X8: the point total and the faction of a deck do not depend on the
    order in which the deck lists its entries: two decks with the same
    entries have the same point total and the same faction. *)
Theorem totals_order_independent (us : list Unit) (d d' : Deck) :
  d ≡ₚ d' ->
  pointsOf (deckItemsOf us d) = pointsOf (deckItemsOf us d')
  /\ factionOf (deckItemsOf us d) = factionOf (deckItemsOf us d').
Proof.
  intros Hp. pose proof (deckItemsOf_Permutation us d d' Hp) as Hitems.
  split; [by apply pointsOf_Permutation|by apply factionOf_Permutation].
Qed.

Lemma totals_order_independent_witness :
  let us := [ship "a" "Germany" 45 (7 # 2); ship "b" "Italy" 10 (5 # 3)] in
  let d := [("a", 1); ("b", 3)] in
  let d' := [("b", 3); ("a", 1)] in
  pointsOf (deckItemsOf us d) = pointsOf (deckItemsOf us d')
  /\ factionOf (deckItemsOf us d) = factionOf (deckItemsOf us d').
Proof.
  intros us d d'. apply (totals_order_independent us d d').
  apply perm_swap.
Defined.

(** X7: from an empty deck, adds that the gate of the catalog panel lets
    through and removes never take the deck over the point cap, and they
    leave the cap and the catalog as they were. *)
Theorem gated_deck_within_cap (st0 st : AppState) :
  catalogOk (units st0) -> deck st0 = [] -> 0 <= pointCap st0 ->
  rtc gatedStep st0 st ->
  deckPoints st <= pointCap st
  /\ pointCap st = pointCap st0 /\ units st = units st0.
Proof.
  intros Hcat Hd Hc Hsteps.
  split; [by apply (gated_adds_within_cap st0)|].
  clear Hcat Hd Hc. induction Hsteps as [st|st st1 st2 Hstep _ IH]; [done|].
  assert (pointCap st1 = pointCap st /\ units st1 = units st) as [E1 E2].
  { destruct Hstep as [st u _ _|st u _].
    - unfold addToDeck. by destruct (decide _).
    - unfold removeFromDeck. by destruct (decide _). }
  destruct IH as [IH1 IH2]. split; congruence.
Qed.

Lemma gated_deck_within_cap_witness :
  let x := ship "x" "Germany" 30 (9 # 1) in
  let st0 := stateOf [x] ∅ 50 axis_only [] in
  let st := removeFromDeck x (addToDeck x st0) in
  deckPoints st <= pointCap st
  /\ pointCap st = pointCap st0 /\ units st = units st0.
Proof.
  intros x st0 st. apply (gated_deck_within_cap st0 st).
  - split.
    + apply (bool_decide_unpack _). vm_compute. exact I.
    + repeat constructor. vm_compute. discriminate.
  - reflexivity.
  - vm_compute. discriminate.
  - eapply rtc_l; [apply (gated_add st0 x); [apply list_elem_of_here|]|].
    + vm_compute. reflexivity.
    + eapply rtc_l; [apply (gated_remove (addToDeck x st0) x); apply list_elem_of_here|].
      apply rtc_refl.
Defined.

End TotalsOrder.

(** ** The countdown and the sign-in button *)

Section Countdown.

(** X9: the countdown is never negative, it never grows as time passes,
    and a tick one second later reads one less, down to 0. *)
Theorem countdown_ticks_down (deadline now now' : Z) :
  now <= now' ->
  0 <= countdown deadline now
  /\ countdown deadline now' <= countdown deadline now
  /\ countdown deadline (now + 1000) = Z.max 0 (countdown deadline now - 1).
Proof.
  intros Hle. unfold countdown.
  pose proof (ceil_div_spec (deadline - now) 1000 ltac:(lia)).
  pose proof (ceil_div_spec (deadline - now') 1000 ltac:(lia)).
  pose proof (ceil_div_spec (deadline - (now + 1000)) 1000 ltac:(lia)).
  lia.
Qed.

Lemma countdown_ticks_down_witness :
  0 <= countdown 54000 500
  /\ countdown 54000 1700 <= countdown 54000 500
  /\ countdown 54000 (500 + 1000) = Z.max 0 (countdown 54000 500 - 1).
Proof. apply (countdown_ticks_down 54000 500 1700). lia. Defined.

(** X10: after a tick, the sign-in button is enabled exactly when an email
    is entered and the deadline has been reached. *)
Theorem signIn_enabled_iff (st : AppState) (now : Z) :
  signInDisabled (tick now st) = false
  <-> email st <> "" /\ cooldownUntil st <= now.
Proof.
  unfold signInDisabled. simpl.
  rewrite orb_false_iff, !bool_decide_eq_false. split.
  - intros [He Hc]. split; [done|].
    destruct (decide (cooldownUntil st <= now)) as [|Hlt]; [done|].
    exfalso. apply Hc. apply countdown_pos. lia.
  - intros [He Hc]. split; [done|]. rewrite countdown_zero by done. lia.
Qed.

End Countdown.

(** ** What the wait-time parser returns *)

Section ParserResult.
Import Regex.

Lemma one_inv p k s g :
  one p k s = Some g ->
  exists x t, rest s = x :: t /\ p x = true
              /\ k (State (Some x) t (group1 s)) = Some g.
Proof.
  unfold one. destruct (rest s) as [|x t]; [done|].
  destruct (p x) eqn:E; [|done]. intros H. by exists x, t.
Qed.

Lemma star_inv p k pv inp g0 g :
  star p k pv inp g0 = Some g ->
  exists pv' ds inp', inp = (ds ++ inp')%list /\ Forall (fun x => p x = true) ds
                      /\ k (State pv' inp' g0) = Some g.
Proof.
  revert pv. induction inp as [|x t IH]; intros pv; simpl.
  - intros H. by exists pv, [], [].
  - destruct (p x) eqn:E.
    + destruct (star p k (Some x) t g0) as [r|] eqn:Es.
      * intros [= <-]. destruct (IH _ Es) as (pv' & ds & inp' & -> & Hds & Hk).
        exists pv', (x :: ds), inp'. split; [done|]. split; [by constructor|done].
      * intros H. by exists pv, [], (x :: t).
    + intros H. by exists pv, [], (x :: t).
Qed.

(** A pattern without a capture group hands the group it received on to
    its continuation. *)
Lemma run_nocap r k s g :
  nocap r = true -> run r k s = Some g ->
  exists s', k s' = Some g /\ group1 s' = group1 s.
Proof.
  revert k s. induction r as [c|c|r1 IH1 r2 IH2|r1 IH1 r2 IH2|c|c|r IH| |];
    intros k s Hn H; simpl in *.
  - apply one_inv in H as (x & t & _ & _ & H). eauto.
  - apply one_inv in H as (x & t & _ & _ & H). eauto.
  - apply andb_true_iff in Hn as [Hn1 Hn2].
    apply IH1 in H as (s1 & H & E1); [|done].
    apply IH2 in H as (s2 & H & E2); [|done].
    exists s2. split; [done|congruence].
  - apply andb_true_iff in Hn as [Hn1 Hn2].
    destruct (run r1 k s) as [x|] eqn:E.
    + injection H as ->. by apply (IH1 k s).
    + by apply (IH2 k s).
  - apply star_inv in H as (pv' & ds & inp' & _ & _ & H). eauto.
  - apply one_inv in H as (x & t & _ & _ & H). simpl in H.
    apply star_inv in H as (pv' & ds & inp' & _ & _ & H). eauto.
  - done.
  - destruct (at_boundary s); [eauto|done].
  - eauto.
Qed.

Lemma consumed_app (pv pv' : option ascii) (ds inp' : list ascii) (g g' : option (list ascii)) :
  consumed (State pv (ds ++ inp')%list g) (State pv' inp' g') = ds.
Proof.
  unfold consumed. simpl. rewrite length_app.
  replace (length ds + length inp' - length inp')%nat with (length ds) by lia.
  by rewrite take_app_length.
Qed.

(** A match of [(\d+)] followed by a pattern without groups yields a
    non-empty run of digits. *)
Lemma digits_pattern r s g :
  nocap r = true ->
  run (Seq (Cap (Plus Digit)) r) accept s = Some g ->
  g <> [] /\ Forall (fun x => Chars.is_digit x = true) g.
Proof.
  intros Hn H. simpl in H.
  apply one_inv in H as (x & t & Hrest & Hx & H). simpl in H.
  apply star_inv in H as (pv' & ds & inp' & -> & Hds & H). simpl in H.
  apply run_nocap in H as (s' & H & E); [|done]. simpl in E.
  unfold accept in H. rewrite E in H. simpl in H. injection H as <-.
  destruct s as [pv inp g0]. simpl in Hrest. subst inp.
  change (x :: ds ++ inp')%list with ((x :: ds) ++ inp')%list.
  rewrite consumed_app. split; [done|]. by constructor.
Qed.

Lemma search_digits r pv inp g :
  nocap r = true ->
  search (Seq (Cap (Plus Digit)) r) pv inp = Some g ->
  g <> [] /\ Forall (fun x => Chars.is_digit x = true) g.
Proof.
  intros Hn. revert pv. induction inp as [|x t IH]; intros pv; rewrite search_unfold.
  - destruct (run _ accept _) as [g'|] eqn:E; [|done].
    intros [= <-]. by eapply digits_pattern.
  - destruct (run _ accept _) as [g'|] eqn:E.
    + intros [= <-]. by eapply digits_pattern.
    + apply IH.
Qed.

Lemma parseInt_digits (ds : list ascii) :
  Forall (fun x => Chars.is_digit x = true) ds -> 0 <= parseInt ds.
Proof.
  unfold parseInt. intros Hds.
  assert (forall a, 0 <= a ->
            0 <= fold_left (fun acc d => 10 * acc + Chars.digit_value d) ds a) as H.
  { induction Hds as [|d ds Hd _ IH]; intros a Ha; simpl; [done|].
    apply IH. unfold Chars.is_digit, Chars.between in Hd.
    apply andb_true_iff in Hd as [Hd _]. apply N.leb_le in Hd.
    unfold Chars.digit_value. lia. }
  by apply H.
Qed.

Lemma parseWaitSeconds_Some_nonneg (msg : string) (n : Z) :
  parseWaitSeconds msg = Some n -> 0 <= n.
Proof.
  unfold parseWaitSeconds, exec.
  destruct (decide (msg = "")); [done|].
  destruct (search seconds_re _ _) as [m|] eqn:E1.
  - intros [= <-]. apply search_digits in E1 as [_ Hd]; [|done].
    by apply parseInt_digits.
  - destruct (search minutes_re _ _) as [m2|] eqn:E2; [|done].
    intros [= <-]. apply search_digits in E2 as [_ Hd]; [|done].
    pose proof (parseInt_digits m2 Hd). lia.
Qed.

(** X11: a wait that [parseWaitSeconds] reads from a message is never
    negative, so neither is the wait of the rate-limit handler. *)
Theorem parseWaitSeconds_nonneg (msg : string) :
  match parseWaitSeconds msg with
  | Some n => 0 <= n
  | None => True
  end
  /\ 0 <= rateLimitWait msg.
Proof.
  unfold rateLimitWait, waitOrDefault.
  destruct (parseWaitSeconds msg) as [n|] eqn:E; simpl; [|split; [done|lia]].
  pose proof (parseWaitSeconds_Some_nonneg msg n E). done.
Qed.

(** The wait the handler of a rate-limit response uses. *)
Lemma signIn_wait_nonneg (status : Z) (error_code msg : option string) :
  0 <= waitOrDefault (e_wait (signInError status error_code msg)).
Proof.
  unfold waitOrDefault. simpl. destruct msg as [m|]; simpl; [|lia].
  destruct (parseWaitSeconds m) as [n|] eqn:E; simpl; [|lia].
  by apply (parseWaitSeconds_Some_nonneg m).
Qed.

Lemma countdown_of_wait (now wait : Z) :
  0 <= wait -> countdown (now + wait * 1000) now = wait.
Proof.
  intros H. unfold countdown.
  pose proof (ceil_div_spec (now + wait * 1000 - now) 1000 ltac:(lia)). lia.
Qed.

(** X12: a rate-limit answer to a request moves the deadline to
    [now + wait * 1000], which is never before [now], and stores it; the
    effect that follows shows a countdown of [wait] seconds, and a reload
    that reads the stored value back starts with the same deadline. *)
Theorem rate_limit_sets_deadline (st : AppState) (now status : Z)
    (error_code msg : option string) :
  email st <> "" -> cooldownLeft st = 0 -> rateLimited status error_code ->
  let wait := waitOrDefault (msg ≫= parseWaitSeconds) in
  let st' := (onMagicSubmit (SignInFailed status error_code msg) now st).1 in
  cooldownUntil st' = now + wait * 1000
  /\ now <= cooldownUntil st'
  /\ stored_cooldown st' = Some (cooldownUntil st')
  /\ cooldownLeft (cooldownEffect now st') = wait
  /\ cooldownUntil (initial (stored_cooldown st')) = cooldownUntil st'.
Proof.
  intros He Hc Hrl wait st'.
  pose proof (signIn_wait_nonneg status error_code msg) as Hw.
  change (waitOrDefault (e_wait (signInError status error_code msg))) with wait in Hw.
  assert (st' = setError ("Too many requests. Try again in " +:+ pretty wait +:+ "s.")
                  (storeCooldownUntil (now + wait * 1000) (setOk "" (setError "" st))))
    as Hst.
  { unfold st', onMagicSubmit. cbn [email setOk setError cooldownLeft].
    rewrite decide_False by done. rewrite decide_False by lia.
    cbn [e_code e_error_code signInError].
    assert (bool_decide (status = 429)
            || bool_decide (error_code = Some "over_email_send_rate_limit") = true) as ->.
    { destruct Hrl as [H|H]; rewrite (bool_decide_true _ H); [done|by rewrite orb_true_r]. }
    done. }
  rewrite Hst. cbn [cooldownUntil stored_cooldown setError storeCooldownUntil initial default].
  split; [done|]. split; [lia|]. split; [done|]. split; [|done].
  rewrite cooldownEffect_tick. cbn [tick cooldownLeft setCooldownLeft cooldownUntil
    setError storeCooldownUntil]. by apply countdown_of_wait.
Qed.

Lemma rate_limit_sets_deadline_witness :
  let st := setEmail "player@example.org" (initial None) in
  let st' := (onMagicSubmit (SignInFailed 429 None (Some "retry after 54s")) 1000 st).1 in
  cooldownUntil st' = 1000 + 54 * 1000
  /\ 1000 <= cooldownUntil st'
  /\ stored_cooldown st' = Some (cooldownUntil st')
  /\ cooldownLeft (cooldownEffect 1000 st') = 54
  /\ cooldownUntil (initial (stored_cooldown st')) = cooldownUntil st'.
Proof.
  intros st.
  apply (rate_limit_sets_deadline st 1000 429 None (Some "retry after 54s")).
  - discriminate.
  - reflexivity.
  - left. reflexivity.
Defined.

(** X13: a submit sends at most one request, to the address entered; it
    leaves the deck alone; it ends with either a notice or an error shown,
    never both and never neither; and it moves the deadline only on a
    rate-limit answer to a request it sent. *)
Theorem onMagicSubmit_outcome (resp : SignInResponse) (now : Z) (st : AppState) :
  let st' := (onMagicSubmit resp now st).1 in
  let reqs := (onMagicSubmit resp now st).2 in
  (reqs = [] \/ reqs = [MagicLink (email st)])
  /\ deck st' = deck st
  /\ ((error st' = "" /\ ok st' <> "") \/ (error st' <> "" /\ ok st' = ""))
  /\ (cooldownUntil st' = cooldownUntil st
       /\ stored_cooldown st' = stored_cooldown st
      \/ reqs = [MagicLink (email st)]
         /\ exists status error_code msg,
              resp = SignInFailed status error_code msg
              /\ rateLimited status error_code).
Proof.
  unfold onMagicSubmit. cbn [email setOk setError cooldownLeft].
  destruct (decide (email st = "")); [simpl; by auto 10|].
  destruct (decide (0 < cooldownLeft st)); [simpl; by auto 10|].
  destruct resp as [|status error_code msg]; [simpl; by auto 10|].
  cbn [e_code e_error_code signInError].
  destruct (bool_decide (status = 429)) eqn:E1;
    [|destruct (bool_decide (error_code = Some "over_email_send_rate_limit")) eqn:E2].
  - apply bool_decide_eq_true in E1. simpl.
    split; [by right|]. split; [done|]. split; [by right|].
    right. split; [done|]. exists status, error_code, msg. split; [done|by left].
  - apply bool_decide_eq_true in E2. simpl.
    split; [by right|]. split; [done|]. split; [by right|].
    right. split; [done|]. exists status, error_code, msg. split; [done|by right].
  - simpl. split; [by right|]. split; [done|]. split; [|by left].
    right. split; [|done]. unfold formatError.
    destruct msg as [m|]; simpl; [|done].
    destruct (decide (m = "")); simpl; [done|]. by rewrite decide_False.
Qed.

End ParserResult.

(** ** The requests of a save *)

Section SaveRequests.

Lemma formatError_nonempty (msg : string) : formatError msg <> "".
Proof. unfold formatError. by destruct (decide (msg = "")). Qed.

Lemma Valid_checks (st : AppState) :
  Valid st ->
  bool_decide (pointCap st < deckPoints st) = false
  /\ bool_decide (factionRule st = axis_only) && bool_decide (factionOfDeck st ≠ Axis) = false
  /\ bool_decide (factionRule st = allies_only) && bool_decide (factionOfDeck st ≠ Allies) = false.
Proof.
  intros (Hc & Hax & Hal). split; [|split].
  - apply bool_decide_eq_false. lia.
  - destruct (decide (factionRule st = axis_only)) as [E|E].
    + rewrite (bool_decide_false (_ ≠ _)); [by rewrite andb_false_r|]. auto.
    + by rewrite (bool_decide_false _ E).
  - destruct (decide (factionRule st = allies_only)) as [E|E].
    + rewrite (bool_decide_false (_ ≠ _)); [by rewrite andb_false_r|]. auto.
    + by rewrite (bool_decide_false _ E).
Qed.

(** The [try] block on a deck that passes the checks. *)
Lemma saveDeck_try_valid (db : Persister) (st : AppState) (s : Session) :
  session st = Some s -> Valid st ->
  saveDeck_try db st []
  = match decks_response db (deckBody st s) with
    | inl text => (inl text, [PostDecks (access_token s) (deckBody st s)])
    | inr row =>
        match deck st with
        | [] => (inr tt, [PostDecks (access_token s) (deckBody st s)])
        | _ :: _ =>
            match deck_units_response db (deckPayload row (deck st)) with
            | Some text =>
                (inl text, [PostDecks (access_token s) (deckBody st s);
                            PostDeckUnits (access_token s) (deckPayload row (deck st))])
            | None =>
                (inr tt, [PostDecks (access_token s) (deckBody st s);
                          PostDeckUnits (access_token s) (deckPayload row (deck st))])
            end
        end
    end.
Proof.
  intros Hs Hv. destruct (Valid_checks st Hv) as (H1 & H2 & H3).
  unfold saveDeck_try. rewrite Hs.
  unfold mbind, Try_bind, mret, Try_ret, throwIf, fetch. simpl.
  rewrite H1. simpl. rewrite H2. simpl. rewrite H3. simpl.
  fold (deckBody st s).
  destruct (decks_response db (deckBody st s)) as [text|row]; simpl; [done|].
  unfold deckPayload. destruct (deck st) as [|e d]; simpl; [done|].
  by destruct (deck_units_response db _).
Qed.

(** X14: when the deck passes the checks and the endpoint accepts both
    requests, [saveDeck] posts the deck and then one row for every entry
    of the deck, with its id and count and the id of the stored deck, and
    reports success; for an empty deck it posts the deck only. *)
Theorem saveDeck_posts_every_entry (db : Persister) (st : AppState)
    (s : Session) (row : string) :
  session st = Some s -> Valid st ->
  decks_response db (deckBody st s) = inr row ->
  deck_units_response db (deckPayload row (deck st)) = None ->
  (saveDeck db st).2
  = PostDecks (access_token s) (deckBody st s)
    :: match deck st with
       | [] => []
       | _ :: _ => [PostDeckUnits (access_token s) (deckPayload row (deck st))]
       end
  /\ ok (saveDeck db st).1 = "Deck saved"
  /\ error (saveDeck db st).1 = ""
  /\ saving (saveDeck db st).1 = false
  /\ length (deckPayload row (deck st)) = length (deck st).
Proof.
  intros Hs Hv Hd Hu. unfold saveDeck.
  rewrite (saveDeck_try_valid db st s Hs Hv), Hd.
  split; [|split; [|split; [|split]]];
    try (destruct (deck st) as [|e d] eqn:E; [done|]; by rewrite Hu).
  unfold deckPayload. by rewrite length_map.
Qed.

Lemma saveDeck_posts_every_entry_witness :
  let x := ship "x" "Germany" 30 (9 # 1) in
  let s := {| access_token := "token"; user_id := "player" |} in
  let st := setSession (Some s) (stateOf [x] ∅ 50 axis_only [("x", 1); ("ghost", 2)]) in
  (saveDeck acceptAll st).2
  = [PostDecks "token" (deckBody st s);
     PostDeckUnits "token"
       [{| r_deck_id := "deck-1"; r_unit_id := "x"; r_count := 1 |};
        {| r_deck_id := "deck-1"; r_unit_id := "ghost"; r_count := 2 |}]]
  /\ ok (saveDeck acceptAll st).1 = "Deck saved"
  /\ error (saveDeck acceptAll st).1 = ""
  /\ saving (saveDeck acceptAll st).1 = false
  /\ length (deckPayload "deck-1" (deck st)) = length (deck st).
Proof.
  intros x s st. apply (saveDeck_posts_every_entry acceptAll st s "deck-1").
  - reflexivity.
  - split; [vm_compute; discriminate|]. split; [reflexivity|discriminate].
  - reflexivity.
  - reflexivity.
Defined.

(** X15: when the endpoint refuses the deck, [saveDeck] shows the text of
    the answer and posts no rows; when it stores the deck and then refuses
    the rows, both requests have been sent, the text is shown, and nothing
    takes the stored deck back. *)
Theorem saveDeck_endpoint_refuses (db : Persister) (st : AppState)
    (s : Session) (text : string) :
  session st = Some s -> Valid st ->
  (decks_response db (deckBody st s) = inl text ->
   saveDeck db st
   = (saveFailed (formatError text) st,
      [PostDecks (access_token s) (deckBody st s)]))
  /\ (forall row,
        decks_response db (deckBody st s) = inr row -> deck st <> [] ->
        deck_units_response db (deckPayload row (deck st)) = Some text ->
        saveDeck db st
        = (saveFailed (formatError text) st,
           [PostDecks (access_token s) (deckBody st s);
            PostDeckUnits (access_token s) (deckPayload row (deck st))])).
Proof.
  intros Hs Hv. split.
  - intros Hd. unfold saveDeck. by rewrite (saveDeck_try_valid db st s Hs Hv), Hd.
  - intros row Hd Hne Hu. unfold saveDeck.
    rewrite (saveDeck_try_valid db st s Hs Hv), Hd.
    destruct (deck st) as [|e d] eqn:E; [done|]. by rewrite Hu.
Qed.

Lemma saveDeck_endpoint_refuses_witness :
  let x := ship "x" "Germany" 30 (9 # 1) in
  let s := {| access_token := "token"; user_id := "player" |} in
  let st := setSession (Some s) (stateOf [x] ∅ 50 axis_only [("x", 1)]) in
  let refuseDeck := {| decks_response := fun _ => inl "denied";
                       deck_units_response := fun _ => None |} in
  let refuseRows := {| decks_response := fun _ => inr "deck-1";
                       deck_units_response := fun _ => Some "denied" |} in
  saveDeck refuseDeck st
  = (saveFailed "denied" st, [PostDecks "token" (deckBody st s)])
  /\ saveDeck refuseRows st
     = (saveFailed "denied" st,
        [PostDecks "token" (deckBody st s);
         PostDeckUnits "token" (deckPayload "deck-1" (deck st))]).
Proof.
  intros x s st refuseDeck refuseRows.
  assert (Valid st) as Hv.
  { split; [vm_compute; discriminate|]. split; [reflexivity|discriminate]. }
  split.
  - destruct (saveDeck_endpoint_refuses refuseDeck st s "denied" eq_refl Hv) as [H _].
    apply H. reflexivity.
  - destruct (saveDeck_endpoint_refuses refuseRows st s "denied" eq_refl Hv) as [_ H].
    apply (H "deck-1"); [reflexivity|discriminate|reflexivity].
Defined.

(** X16: every save ends with the saving flag off and the deck as it was,
    shows either "Deck saved" or an error and never both, and sends
    nothing, or the deck alone, or the deck followed by its rows. *)
Theorem saveDeck_outcome (db : Persister) (st : AppState) :
  let st' := (saveDeck db st).1 in
  let reqs := (saveDeck db st).2 in
  saving st' = false
  /\ deck st' = deck st
  /\ ((error st' = "" /\ ok st' = "Deck saved") \/ (error st' <> "" /\ ok st' = ""))
  /\ (reqs = []
      \/ exists token body,
           reqs = [PostDecks token body]
           \/ exists payload, reqs = [PostDecks token body; PostDeckUnits token payload]).
Proof.
  unfold saveDeck, saveDeck_try.
  unfold mbind, Try_bind, mret, Try_ret, throwIf, throw, fetch.
  pose proof formatError_nonempty as Hne.
  destruct (session st) as [s|]; [|simpl; by auto 10].
  simpl.
  destruct (bool_decide (pointCap st < deckPoints st)); [simpl; by auto 10|]. simpl.
  destruct (bool_decide (factionRule st = axis_only) && _); [simpl; by auto 10|]. simpl.
  destruct (bool_decide (factionRule st = allies_only) && _); [simpl; by auto 10|]. simpl.
  destruct (decks_response db _) as [text|row]; simpl.
  { split; [done|]. split; [done|]. split; [right; split; [apply Hne|done]|].
    right. eexists _, _. by left. }
  destruct (deck st) as [|e d] eqn:E; simpl.
  { split; [done|]. split; [done|]. split; [left; by split|].
    right. eexists _, _. by left. }
  destruct (deck_units_response db _); simpl.
  - split; [done|]. split; [done|]. split; [right; split; [apply Hne|done]|].
    right. eexists _, _. right. by eexists.
  - split; [done|]. split; [done|]. split; [left; by split|].
    right. eexists _, _. right. by eexists.
Qed.

End SaveRequests.

(** ** The candidates of the recommender *)

Section SortByScore.

Lemma insertByScore_perm (x : Unit) (l : list Unit) : insertByScore x l ≡ₚ x :: l.
Proof.
  induction l as [|y l IH]; simpl; [done|].
  destruct (Qlt_le_dec (score x) (score y)); [|done].
  rewrite IH. apply perm_swap.
Qed.

(** X17: the sort of the recommender loses no candidate and repeats
    none: the list [recommend] visits is a rearrangement of the filtered
    list, whatever the scores are. *)
Theorem sortByScore_rearranges (l : list Unit) :
  sortByScore l ≡ₚ l
  /\ length (sortByScore l) = length l
  /\ forall u, u ∈ sortByScore l <-> u ∈ l.
Proof.
  assert (sortByScore l ≡ₚ l) as Hp.
  { unfold sortByScore. induction l as [|x l IH]; simpl; [done|].
    by rewrite insertByScore_perm, IH. }
  split; [done|]. split; [by rewrite Hp|]. intros u. by rewrite Hp.
Qed.

End SortByScore.

(** ** The recommended deck *)

Section RecommendedDeck.

Lemma sortByScore_elem (l : list Unit) (u : Unit) : u ∈ sortByScore l <-> u ∈ l.
Proof.
  unfold sortByScore. induction l as [|x l IH]; simpl; [done|].
  by rewrite insertByScore_perm, !elem_of_cons, IH.
Qed.

Lemma filtered_filter (st : AppState) :
  filtered st = List.filter (passes st) (units st).
Proof.
  unfold filtered, passes. cbv zeta.
  rewrite stage_when, stage_rule, !stage_unless, !filter_filter.
  apply filter_ext. intros u. by rewrite !andb_assoc, !orb_assoc.
Qed.

Lemma filtered_elem (st : AppState) (u : Unit) :
  u ∈ filtered st -> u ∈ units st /\ has (match factionRule st with
                                          | allies_only => allies
                                          | _ => axis
                                          end) (u_nation u) = true
                     \/ u ∈ units st /\ factionRule st = mixed.
Proof.
  rewrite filtered_filter, filter_elem_of. intros [Hin Hp].
  unfold passes in Hp. rewrite !andb_true_iff in Hp.
  destruct Hp as [[_ Hf] _]. destruct (factionRule st); auto.
Qed.

Lemma recommendInv_add pool own u s :
  u ∈ pool ->
  deck_get (next s) (u_id u) < copyCap own (u_id u) ->
  recommendInv pool own s ->
  forall first,
  recommendInv pool own
    {| next := deck_set (next s) (u_id u) (deck_get (next s) (u_id u) + 1);
       spent := spent s + pts u;
       adds := adds s ++ [{| ev_unit := u_id u; ev_first := first;
                             ev_before := spent s;
                             ev_after := spent s + pts u |}] |}.
Proof.
  intros Hin Hroom ([Hnd Hall] & Hkeys) first.
  split; [split|]; simpl.
  - by apply deck_set_NoDup.
  - apply deck_set_Forall; [done|]. simpl.
    assert (0 <= deck_get (next s) (u_id u)) as Hpos.
    { apply deck_get_nonneg. eapply Forall_impl; [exact Hall|].
      intros e [He _]. lia. }
    lia.
  - apply deck_set_Forall; [done|]. simpl. apply list_elem_of_fmap. eauto.
Qed.

Lemma addCopies_inv pool own cap limit u first s :
  u ∈ pool -> limit <= copyCap own (u_id u) ->
  recommendInv pool own s ->
  recommendInv pool own (addCopies cap limit u first s).
Proof.
  funelim (addCopies cap limit u first s); intros Hin Hl Hinv; try done.
  - apply recommendInv_add; try done. lia.
  - match goal with IH : forall pool own, _ |- _ => apply IH end; try done.
    apply recommendInv_add; try done. lia.
Qed.

Lemma forScored_inv pool own cap scored s :
  Forall (fun u => u ∈ pool) scored ->
  recommendInv pool own s ->
  recommendInv pool own (forScored cap own scored s).
Proof.
  intros Hs. revert s. induction Hs as [|u scored Hin _ IH]; intros s Hinv; simpl.
  - done.
  - assert (recommendInv pool own (addCopies cap (maxCopies own u) u true s)) as H.
    { by apply addCopies_inv. }
    destruct (decide _); [done|]. by apply IH.
Qed.

Lemma recommendRun_inv pool own cap :
  recommendInv pool own (recommendRun pool own cap).
Proof.
  unfold recommendRun. apply forScored_inv.
  - apply Forall_forall. intros u Hu. by apply sortByScore_elem.
  - split; [split|]; simpl; constructor.
Qed.

(** The points of the deck under construction are the points spent. *)
Lemma addCopies_points us cap limit u first s :
  weight us (u_id u) = pts u ->
  pointsOf (deckItemsOf us (next s)) = spent s ->
  pointsOf (deckItemsOf us (next (addCopies cap limit u first s)))
  = spent (addCopies cap limit u first s).
Proof.
  funelim (addCopies cap limit u first s); intros Hw Hpts; try done.
  - simpl. rewrite points_set, Hw, Hpts. lia.
  - match goal with IH : forall us, _ |- _ => apply IH end; try done.
    simpl. rewrite points_set, Hw, Hpts. lia.
Qed.

Lemma forScored_points us cap own scored s :
  Forall (fun u => weight us (u_id u) = pts u) scored ->
  pointsOf (deckItemsOf us (next s)) = spent s ->
  pointsOf (deckItemsOf us (next (forScored cap own scored s)))
  = spent (forScored cap own scored s).
Proof.
  intros Hs. revert s. induction Hs as [|u scored Hw _ IH]; intros s Hpts; simpl.
  - done.
  - pose proof (addCopies_points us cap (maxCopies own u) u true s Hw Hpts) as H.
    destruct (decide _); [done|]. by apply IH.
Qed.

(** X18: whatever the catalog, the filters and the ownership table, the
    deck that [recommend] builds lists every unit id once, gives every
    entry a count of at least 1 and at most the copy cap of its unit, and
    holds only units of the filtered list. *)
Theorem recommend_deck_well_formed (st : AppState) :
  wellFormed (ownership st) (deck (recommend st))
  /\ Forall (fun e => exists u, u ∈ filtered st /\ u_id u = e.1) (deck (recommend st))
  /\ forall u, deck_get (deck (recommend st)) (u_id u)
               <= Z.max 0 (maxCopies (ownership st) u).
Proof.
  destruct (recommendRun_inv (filtered st) (ownership st) (pointCap st)) as [Hwf Hkeys].
  unfold recommend. simpl. split; [done|]. split.
  - eapply Forall_impl; [exact Hkeys|]. intros e He.
    apply list_elem_of_fmap in He as (u & E & Hu). eauto.
  - intros u. unfold deck_get.
    destruct (deck_lookup _ (u_id u)) as [c|] eqn:E; simpl; [|lia].
    apply deck_lookup_elem in E. destruct Hwf as [_ Hall].
    rewrite Forall_forall in Hall. specialize (Hall _ E). simpl in Hall.
    unfold maxCopies. unfold copyCap in Hall. lia.
Qed.

Lemma recommend_points (st : AppState) :
  NoDup (List.map u_id (units st)) ->
  deckPoints (recommend st)
  = spent (recommendRun (filtered st) (ownership st) (pointCap st)).
Proof.
  intros Hids. unfold deckPoints, deckItems, recommend. cbn [units deck setDeck].
  unfold recommendRun. apply forScored_points; [|done].
  apply Forall_forall. intros u Hu. apply (proj1 (sortByScore_elem _ _)) in Hu.
  rewrite filtered_filter, filter_elem_of in Hu. destruct Hu as [Hu _].
  unfold weight. by rewrite (findUnit_elem _ _ Hids Hu).
Qed.

(** X19: when the unit ids of the catalog are unique and the cap is not
    negative, the deck that [recommend] builds never costs more than the
    cap, whatever the points of the units. *)
Theorem recommend_within_cap (st : AppState) :
  NoDup (List.map u_id (units st)) -> 0 <= pointCap st ->
  deckPoints (recommend st) <= pointCap st
  /\ pointCap (recommend st) = pointCap st.
Proof.
  intros Hids Hcap. split; [|done]. rewrite (recommend_points st Hids).
  unfold recommendRun. by apply forScored_spent.
Qed.

Lemma recommend_within_cap_witness :
  let st := stateOf [ship "ten" "Italy" 10 (9 # 1); ship "big" "Germany" 45 (45 # 1)]
              ∅ 50 axis_only [("ten", 5)] in
  deckPoints (recommend st) <= pointCap st
  /\ pointCap (recommend st) = pointCap st.
Proof.
  intros st. apply (recommend_within_cap st).
  - apply (bool_decide_unpack _). vm_compute. exact I.
  - vm_compute. discriminate.
Defined.

Lemma deckItemsOf_elem (us : list Unit) (d : Deck) (x : Unit * Z) :
  x ∈ deckItemsOf us d -> exists e, e ∈ d /\ findUnit us e.1 = Some x.1.
Proof.
  induction d as [|e d IH]; [by intros H; apply elem_of_nil in H|].
  rewrite deckItemsOf_cons. destruct (findUnit us e.1) as [u|] eqn:E.
  - intros H. apply elem_of_cons in H as [->|H].
    + exists e. split; [apply list_elem_of_here|done].
    + destruct (IH H) as (e' & He' & Hf). exists e'.
      split; [by apply list_elem_of_further|done].
  - intros H. destruct (IH H) as (e' & He' & Hf). exists e'.
    split; [by apply list_elem_of_further|done].
Qed.

(** Every item of the recommended deck is a unit of the filtered list. *)
Lemma recommend_items_filtered (st : AppState) (x : Unit * Z) :
  NoDup (List.map u_id (units st)) ->
  x ∈ deckItems (recommend st) -> x.1 ∈ filtered st.
Proof.
  intros Hids Hx. unfold deckItems, recommend in Hx. cbn [units deck setDeck] in Hx.
  apply deckItemsOf_elem in Hx as (e & He & Hf).
  destruct (recommendRun_inv (filtered st) (ownership st) (pointCap st)) as [_ Hkeys].
  rewrite Forall_forall in Hkeys. specialize (Hkeys e He).
  apply list_elem_of_fmap in Hkeys as (u & E & Hu).
  assert (u ∈ units st) as Hin.
  { rewrite filtered_filter, filter_elem_of in Hu. by destruct Hu. }
  rewrite E, (findUnit_elem _ _ Hids Hin) in Hf. injection Hf as <-. done.
Qed.

Lemma recommend_items_nonempty (st : AppState) :
  NoDup (List.map u_id (units st)) ->
  deck (recommend st) <> [] -> deckItems (recommend st) <> [].
Proof.
  intros Hids Hne. unfold deckItems, recommend in *. cbn [units deck setDeck] in *.
  destruct (recommendRun_inv (filtered st) (ownership st) (pointCap st)) as [_ Hkeys].
  destruct (next (recommendRun (filtered st) (ownership st) (pointCap st)))
    as [|e d]; [done|]. clear Hne.
  apply Forall_cons in Hkeys as [He _].
  apply list_elem_of_fmap in He as (u & E & Hu).
  assert (u ∈ units st) as Hin.
  { rewrite filtered_filter, filter_elem_of in Hu. by destruct Hu. }
  rewrite deckItemsOf_cons, E, (findUnit_elem _ _ Hids Hin). done.
Qed.

(** X20: a recommended deck can be saved as it is: when the unit ids of
    the catalog are unique and the cap is not negative, the deck that
    [recommend] builds passes the point check and the faction check of
    [saveDeck] (under the Allies-only rule, provided it is not empty), so
    that a signed-in save sends it to the endpoint. *)
Theorem recommended_deck_passes_checks (st : AppState) :
  NoDup (List.map u_id (units st)) -> 0 <= pointCap st ->
  (factionRule st = allies_only -> deck (recommend st) <> []) ->
  Valid (recommend st)
  /\ forall db s, session st = Some s ->
       exists rest,
         (saveDeck db (recommend st)).2
         = PostDecks (access_token s) (deckBody (recommend st) s) :: rest.
Proof.
  intros Hids Hcap Hne.
  assert (forall set,
            (forall u, u ∈ filtered st -> has set (u_nation u) = true) ->
            forallb (has set)
              (remove_dups (List.map (fun x : Unit * Z => u_nation x.1)
                              (deckItems (recommend st)))) = true) as Hall.
  { intros set Hset. apply forallb_remove_dups, Forall_forall.
    intros x Hx. apply Hset. by apply recommend_items_filtered. }
  assert (Valid (recommend st)) as Hv.
  { split; [|split].
    - pose proof (recommend_points st Hids) as Hp.
      change (pointCap (recommend st)) with (pointCap st). rewrite Hp.
      unfold recommendRun. by apply forScored_spent.
    - change (factionRule (recommend st)) with (factionRule st). intros Hr.
      unfold factionOfDeck, factionOf. rewrite (Hall axis); [done|].
      intros u Hu. apply filtered_elem in Hu as [[_ Hu]|[_ Hu]]; [|congruence].
      by rewrite Hr in Hu.
    - change (factionRule (recommend st)) with (factionRule st). intros Hr.
      assert (forall u, u ∈ filtered st -> has allies (u_nation u) = true) as Hal.
      { intros u Hu. apply filtered_elem in Hu as [[_ Hu]|[_ Hu]]; [|congruence].
        by rewrite Hr in Hu. }
      unfold factionOfDeck, factionOf. rewrite (Hall allies Hal).
      destruct (forallb (has axis) _) eqn:Eax; [|done]. exfalso.
      apply forallb_remove_dups in Eax.
      pose proof (recommend_items_nonempty st Hids (Hne Hr)) as Hitems.
      destruct (deckItems (recommend st)) as [|x items] eqn:E; [done|].
      apply Forall_cons in Eax as [Eax _].
      apply (axis_allies_disjoint (u_nation x.1) Eax). apply Hal.
      apply recommend_items_filtered; [done|]. rewrite E. apply list_elem_of_here. }
  split; [done|]. intros db s Hs. unfold saveDeck.
  rewrite (saveDeck_try_valid db (recommend st) s Hs Hv).
  destruct (decks_response db _) as [text|row]; [by eexists|].
  destruct (deck (recommend st)) as [|e d]; [by eexists|].
  destruct (deck_units_response db _); by eexists.
Qed.

Lemma recommended_deck_passes_checks_witness :
  let s := {| access_token := "token"; user_id := "player" |} in
  let st := setSession (Some s)
              (stateOf [ship "ten" "Italy" 10 (9 # 1); ship "usa" "USA" 45 (45 # 1)]
                 ∅ 50 allies_only []) in
  Valid (recommend st)
  /\ exists rest,
       (saveDeck acceptAll (recommend st)).2
       = PostDecks "token" (deckBody (recommend st) s) :: rest.
Proof.
  intros s st.
  destruct (recommended_deck_passes_checks st) as [Hv Hsave].
  - apply (bool_decide_unpack _). vm_compute. exact I.
  - vm_compute. discriminate.
  - intros _. vm_compute. discriminate.
  - split; [exact Hv|]. apply (Hsave acceptAll s). reflexivity.
Defined.

End RecommendedDeck.

(** ** The filtered list *)

Section FilteredList.

Lemma filter_none {A} (f : A -> bool) (l : list A) :
  (forall x, f x = false) -> List.filter f l = [].
Proof. intros H. induction l as [|x l IH]; simpl; [done|]. by rewrite H. Qed.

Lemma filter_mono {A} (f g : A -> bool) (l : list A) :
  (forall x, f x = true -> g x = true) ->
  sublist (List.filter f l) (List.filter g l).
Proof.
  intros H. induction l as [|x l IH]; simpl; [constructor|].
  destruct (f x) eqn:E.
  - rewrite (H x E). by constructor.
  - destruct (g x); [by constructor|done].
Qed.

(** X21: with the owned-only filter on and no ownership table, as at
    mount before any sign-in, the filtered list is empty whatever the
    catalog, and [recommend] builds the empty deck. *)
Theorem owned_only_hides_all (st : AppState) :
  ownedOnly st = true -> ownership st = ∅ ->
  filtered st = [] /\ deck (recommend st) = [].
Proof.
  intros Ho He.
  assert (filtered st = []) as H.
  { rewrite filtered_filter. apply filter_none. intros u.
    unfold passes, isOwned. rewrite Ho, He, lookup_empty. simpl.
    by rewrite andb_false_r. }
  split; [done|]. unfold recommend, recommendRun. by rewrite H.
Qed.

Lemma owned_only_hides_all_witness :
  let st := setUnits [ship "big" "Germany" 45 (45 # 1)] (initial None) in
  filtered st = [] /\ deck (recommend st) = [].
Proof. intros st. apply (owned_only_hides_all st); reflexivity. Defined.

(** X22: under a rule other than mixed, a deck made of units of the
    filtered list, whatever their counts, classifies as the faction of the
    rule as soon as it has an item. *)
Theorem filtered_units_match_rule (st : AppState) (items : list (Unit * Z)) :
  factionRule st <> mixed -> items <> [] ->
  Forall (fun x => x.1 ∈ filtered st) items ->
  factionOf items = ruleFaction (factionRule st).
Proof.
  intros Hr Hne Hitems.
  assert (Forall (fun x : Unit * Z =>
                    has (match factionRule st with
                         | allies_only => allies
                         | _ => axis
                         end) (u_nation x.1) = true) items) as Hall.
  { eapply Forall_impl; [exact Hitems|]. intros x Hx.
    by apply filtered_elem in Hx as [[_ Hx]|[_ Hx]]. }
  unfold factionOf. destruct (factionRule st) eqn:E; [| |done].
  - by rewrite (proj2 (forallb_remove_dups (has axis) (fun x : Unit * Z => u_nation x.1) items) Hall).
  - rewrite (proj2 (forallb_remove_dups (has allies) (fun x : Unit * Z => u_nation x.1) items) Hall).
    destruct (forallb (has axis) _) eqn:Eax; [|done]. exfalso.
    apply forallb_remove_dups in Eax. destruct items as [|x items]; [done|].
    apply Forall_cons in Eax as [Eax _]. apply Forall_cons in Hall as [Hall _].
    by apply (axis_allies_disjoint (u_nation x.1)).
Qed.

Lemma filtered_units_match_rule_witness :
  let usa := ship "usa" "USA" 45 (45 # 1) in
  let st := stateOf [ship "ten" "Italy" 10 (9 # 1); usa] ∅ 50 allies_only [] in
  factionOf [(usa, 2)] = ruleFaction (factionRule st).
Proof.
  intros usa st. apply (filtered_units_match_rule st [(usa, 2)]).
  - discriminate.
  - discriminate.
  - repeat constructor.
Defined.

(** X23: the reset button of the filter panel never hides a unit that was
    listed: the filtered list before the reset is a sublist of the one
    after it. *)
Theorem reset_shows_more (st : AppState) :
  sublist (filtered st) (filtered (resetFilters st))
  /\ q (resetFilters st) = "" /\ nation (resetFilters st) = "All"
  /\ type (resetFilters st) = "All".
Proof.
  split; [|done]. rewrite !filtered_filter.
  change (units (resetFilters st)) with (units st).
  apply filter_mono. intros u. unfold passes. simpl.
  rewrite !andb_true_iff. intros [[[[_ _] _] Hf] Ho]. by rewrite Hf, Ho.
Qed.

End FilteredList.

(** ** The options of the selects *)

Section Options.

Lemma str_leb_total (a b : string) : str_leb a b = true \/ str_leb b a = true.
Proof.
  revert b. induction a as [|x a IH]; intros [|y b]; simpl; auto.
  destruct (N.ltb_spec (Chars.code x) (Chars.code y));
    destruct (N.ltb_spec (Chars.code y) (Chars.code x)); auto; lia.
Qed.

Lemma str_leb_trans (a b c : string) :
  str_leb a b = true -> str_leb b c = true -> str_leb a c = true.
Proof.
  revert b c. induction a as [|x a IH]; intros [|y b] [|z c]; simpl; try done.
  destruct (N.ltb_spec (Chars.code x) (Chars.code y));
    destruct (N.ltb_spec (Chars.code y) (Chars.code x));
    destruct (N.ltb_spec (Chars.code y) (Chars.code z));
    destruct (N.ltb_spec (Chars.code z) (Chars.code y));
    destruct (N.ltb_spec (Chars.code x) (Chars.code z));
    destruct (N.ltb_spec (Chars.code z) (Chars.code x));
    try done; try lia.
  apply IH.
Qed.

Lemma insertString_perm (x : string) (l : list string) : insertString x l ≡ₚ x :: l.
Proof.
  induction l as [|y l IH]; simpl; [done|].
  destruct (str_leb x y); [done|]. rewrite IH. apply perm_swap.
Qed.

Lemma insertString_sorted (x : string) (l : list string) :
  StronglySorted (fun a b => str_leb a b = true) l ->
  StronglySorted (fun a b => str_leb a b = true) (insertString x l).
Proof.
  induction 1 as [|y l Hl IH Hy]; simpl.
  - repeat constructor.
  - destruct (str_leb x y) eqn:E.
    + constructor; [by constructor|]. constructor; [done|].
      eapply Forall_impl; [exact Hy|]. intros z Hz. simpl in Hz.
      by apply (str_leb_trans x y z).
    + constructor; [done|]. rewrite insertString_perm. constructor; [|done].
      destruct (str_leb_total x y); [congruence|done].
Qed.

Lemma sortStrings_perm (l : list string) : sortStrings l ≡ₚ l.
Proof.
  unfold sortStrings. induction l as [|x l IH]; simpl; [done|].
  by rewrite insertString_perm, IH.
Qed.

Lemma sortStrings_sorted (l : list string) :
  StronglySorted (fun a b => str_leb a b = true) (sortStrings l).
Proof.
  unfold sortStrings. induction l as [|x l IH]; simpl; [constructor|].
  by apply insertString_sorted.
Qed.

Lemma truthy_elem (xs : list (option string)) (n : string) :
  n ∈ truthy xs <-> n <> "" /\ Some n ∈ xs.
Proof.
  unfold truthy. rewrite list_elem_of_omap. split.
  - intros ([s|] & Hx & E); [|done].
    destruct (decide (s = "")); [done|]. injection E as ->. done.
  - intros [Hne Hin]. exists (Some n). split; [done|]. by rewrite decide_False.
Qed.

Lemma options_spec (xs : list (option string)) :
  exists l,
    options xs = "All" :: l
    /\ NoDup l
    /\ StronglySorted (fun a b => str_leb a b = true) l
    /\ forall n, n ∈ l <-> n <> "" /\ Some n ∈ xs.
Proof.
  exists (sortStrings (remove_dups (truthy xs))). split; [done|]. split; [|split].
  - rewrite sortStrings_perm. apply NoDup_remove_dups.
  - apply sortStrings_sorted.
  - intros n. by rewrite sortStrings_perm, elem_of_remove_dups, truthy_elem.
Qed.

(** X24: the nation select offers "All" and then every nation that some
    unit of the catalog has, each once, in ascending order; a unit without
    a nation adds no option.  The type select does the same with types. *)
Theorem select_options (st : AppState) :
  (exists l,
     nations st = "All" :: l
     /\ NoDup l
     /\ StronglySorted (fun a b => str_leb a b = true) l
     /\ forall n, n ∈ l <-> n <> "" /\ exists u, u ∈ units st /\ u_nation u = Some n)
  /\ (exists l,
        types st = "All" :: l
        /\ NoDup l
        /\ StronglySorted (fun a b => str_leb a b = true) l
        /\ forall t, t ∈ l <-> t <> "" /\ exists u, u ∈ units st /\ u_type u = Some t).
Proof.
  split.
  - destruct (options_spec (List.map u_nation (units st))) as (l & E & Hnd & Hs & Hin).
    exists l. split; [done|]. split; [done|]. split; [done|].
    intros n. rewrite Hin, list_elem_of_fmap. split.
    + intros [Hne (u & E' & Hu)]. eauto.
    + intros [Hne (u & Hu & E')]. eauto.
  - destruct (options_spec (List.map u_type (units st))) as (l & E & Hnd & Hs & Hin).
    exists l. split; [done|]. split; [done|]. split; [done|].
    intros t. rewrite Hin, list_elem_of_fmap. split.
    + intros [Hne (u & E' & Hu)]. eauto.
    + intros [Hne (u & Hu & E')]. eauto.
Qed.

Example nations_example :
  nations (stateOf [ship "a" "Japan" 1 0; ship "b" "Germany" 1 0;
                    ship "c" "Japan" 1 0; ship "d" "" 1 0] ∅ 50 mixed [])
  = ["All"; "Germany"; "Japan"].
Proof. vm_compute. reflexivity. Qed.

End Options.

(** ** Loading *)

Section Loading.

Lemma ownershipOf_acc (data : list OwnershipRow) (m : gmap string OwnershipRecord)
    (k : string) :
  fold_left (fun map r =>
               <[o_unit_id r := {| owned := o_owned r; copies := o_copies r |}]> map)
    data m !! k
  = match last (filter (fun r => o_unit_id r = k) data) with
    | Some r => Some {| owned := o_owned r; copies := o_copies r |}
    | None => m !! k
    end.
Proof.
  revert m. induction data as [|r data IH]; intros m; [done|].
  cbn [fold_left]. rewrite IH.
  destruct (decide (o_unit_id r = k)) as [E|E].
  - rewrite filter_cons_True by done. rewrite last_cons.
    destruct (last (filter _ data)); [done|].
    by rewrite E, lookup_insert_eq.
  - rewrite filter_cons_False by done.
    destruct (last (filter _ data)); [done|].
    by rewrite lookup_insert_ne.
Qed.

(** X25: the ownership table built from the rows of the endpoint gives,
    for a unit id, the values of the last row with that id; an id without
    a row has no record, so that its copy cap is 99 and the owned-only
    filter hides its unit. *)
Theorem ownershipOf_last_row (data : list OwnershipRow) (u : Unit) :
  let own := ownershipOf data in
  match last (filter (fun r => o_unit_id r = u_id u) data) with
  | Some r =>
      own !! u_id u = Some {| owned := o_owned r; copies := o_copies r |}
      /\ maxCopies own u = default 99 (o_copies r)
  | None =>
      own !! u_id u = None /\ maxCopies own u = 99 /\ isOwned own u = false
  end.
Proof.
  intros own. unfold own, ownershipOf, maxCopies, isOwned.
  rewrite ownershipOf_acc.
  destruct (last _) as [r|]; [done|]. by rewrite lookup_empty.
Qed.

Example ownershipOf_example :
  let own := ownershipOf [ {| o_unit_id := "x"; o_owned := Some true; o_copies := Some 1 |};
                           {| o_unit_id := "y"; o_owned := Some false; o_copies := None |};
                           {| o_unit_id := "x"; o_owned := Some true; o_copies := Some 4 |} ] in
  maxCopies own (ship "x" "Germany" 1 0) = 4
  /\ maxCopies own (ship "y" "Germany" 1 0) = 99
  /\ isOwned own (ship "y" "Germany" 1 0) = false
  /\ maxCopies own (ship "z" "Germany" 1 0) = 99.
Proof. vm_compute. done. Qed.

Lemma statsMap_acc (s : list StatsRow) (m : gmap string Stats) (k : string) :
  fold_left (fun m r => <[s_unit_id r := s_stats r]> m) s m !! k
  = match last (filter (fun r => s_unit_id r = k) s) with
    | Some r => Some (s_stats r)
    | None => m !! k
    end.
Proof.
  revert m. induction s as [|r s IH]; intros m; [done|].
  cbn [fold_left]. rewrite IH.
  destruct (decide (s_unit_id r = k)) as [E|E].
  - rewrite filter_cons_True by done. rewrite last_cons.
    destruct (last (filter _ s)); [done|].
    by rewrite E, lookup_insert_eq.
  - rewrite filter_cons_False by done.
    destruct (last (filter _ s)); [done|].
    by rewrite lookup_insert_ne.
Qed.

(** X26: joining the stats keeps the catalog as it came, unit for unit and
    in order; each unit gets the stats of the last stats row with its id,
    and a unit without a stats row has an effective damage of 0 at every
    range, hence a score of 0 for the recommender. *)
Theorem mergeStats_joins (u : list UnitRow) (s : list StatsRow) :
  Forall2 (fun x m =>
             u_id m = x_id x /\ u_name m = x_name x /\ u_nation m = x_nation x
             /\ u_type m = x_type x /\ u_points m = x_points x
             /\ u_abilities m = x_abilities x
             /\ match last (filter (fun r => s_unit_id r = x_id x) s) with
                | Some r => u_stats m = Some (s_stats r)
                | None => (forall r, eff m r = 0%Q) /\ (score m == 0)%Q
                end)
    u (mergeStats u s).
Proof.
  unfold mergeStats. induction u as [|x u IH]; simpl; constructor; [|exact IH].
  simpl. repeat (split; [done|]).
  unfold statsMap. rewrite statsMap_acc, lookup_empty.
  destruct (last _) as [r|]; [done|]. split; [done|].
  unfold score, eff. simpl. unfold Qdiv. ring.
Qed.

Example mergeStats_example :
  let merged := mergeStats
    [ {| x_id := "a"; x_name := Some "A"; x_nation := Some "Japan"; x_type := None;
         x_points := Some 10; x_abilities := None |};
      {| x_id := "b"; x_name := Some "B"; x_nation := None; x_type := None;
         x_points := None; x_abilities := None |} ]
    [ {| s_unit_id := "a"; s_stats := {| effective_gunnerytotal := fun _ => Some (1 # 1) |} |};
      {| s_unit_id := "a"; s_stats := {| effective_gunnerytotal := fun _ => Some (5 # 1) |} |} ] in
  List.map u_id merged = ["a"; "b"]
  /\ List.map (fun m => Qred (score m)) merged = [(2 # 1)%Q; 0%Q].
Proof. vm_compute. done. Qed.

End Loading.

(** ** More on the parser and on removing *)

Section Further.

(** X27: a message that contains neither the letter s nor the letter m, in
    either case, names no unit the parser knows: [parseWaitSeconds] returns
    [null] and the rate-limit handler waits the fallback of 60 seconds. *)
Theorem message_without_unit_waits_60 (msg : string) :
  free_of "s" (Chars.chars msg) -> free_of "m" (Chars.chars msg) ->
  parseWaitSeconds msg = None
  /\ waitOrDefault (e_wait (signInError 429 None (Some msg))) = 60.
Proof.
  intros Hs Hm. destruct (parseWaitSeconds_no_unit msg Hs Hm) as [H _].
  split; [done|]. simpl. by rewrite H.
Qed.

Lemma message_without_unit_waits_60_witness :
  parseWaitSeconds "try later: 54" = None
  /\ waitOrDefault (e_wait (signInError 429 None (Some "try later: 54"))) = 60.
Proof.
  apply (message_without_unit_waits_60 "try later: 54");
    repeat constructor; vm_compute; discriminate.
Defined.

(** X28: in a deck without negative counts, [removeFromDeck] takes one
    copy of the unit away, stopping at 0, and changes the count of no
    other unit. *)
Theorem remove_takes_one (st : AppState) (u : Unit) :
  Forall (fun e => 0 <= e.2) (deck st) ->
  deck_get (deck (removeFromDeck u st)) (u_id u)
  = Z.max 0 (deck_get (deck st) (u_id u) - 1)
  /\ forall k, k <> u_id u ->
       deck_get (deck (removeFromDeck u st)) k = deck_get (deck st) k.
Proof.
  intros Hd. pose proof (deck_get_nonneg (deck st) (u_id u) Hd) as Hpos.
  unfold removeFromDeck. destruct (decide _) as [Hlast|Hmore]; simpl.
  - split; [rewrite deck_get_delete; lia|].
    intros k Hk. by apply deck_get_delete_ne.
  - split; [rewrite deck_get_set; lia|].
    intros k Hk. by apply deck_get_set_ne.
Qed.

Lemma remove_takes_one_witness :
  let x := ship "x" "Germany" 10 (9 # 1) in
  let st := stateOf [x] ∅ 150 axis_only [("y", 2); ("x", 1)] in
  deck_get (deck (removeFromDeck x st)) (u_id x)
  = Z.max 0 (deck_get (deck st) (u_id x) - 1)
  /\ forall k, k <> u_id x ->
       deck_get (deck (removeFromDeck x st)) k = deck_get (deck st) k.
Proof.
  intros x st. apply (remove_takes_one st x).
  repeat constructor; simpl; lia.
Defined.

End Further.
